(** * API documentation index of r2/controllers/api_docs.py

    A shallow embedding of [api_doc] (the decorator that attaches
    documentation metadata to an API function),
    [ApidocsController.docs_from_controller] (the collector) and the merge
    loop of [ApidocsController.GET_docs] (the aggregator), with the
    properties of the documentation index proved about them.

    Python dictionaries that the code mutates ([_api_doc] records and the
    [docs] records built by the collector) live in an explicit store, so
    that aliasing between a record and the references held to it is
    visible.  Strings, lists of strings and parameter tables are never
    updated in place by a run that completes and are modelled as values. *)

From stdpp Require Import gmap strings list fin_maps functions.
From Stdlib Require Import ZArith Ascii.

Open Scope string_scope.

(** ** Python values *)

(** Addresses of dictionary objects and identities of function objects. *)
Abbreviation addr := nat.
Abbreviation fid := nat.

(** The values that occur in documentation metadata. [VDict] is a table of
    strings (the [parameters] field); [VRef] is a reference to a metadata
    dictionary held in the store (the resolved [extends] field); [VFunc] is
    a function object (the [extends] keyword argument before it is
    resolved). *)
Inductive value : Type :=
  | VNone
  | VStr (s : string)
  | VInt (n : Z)
  | VList (l : list string)
  | VDict (d : gmap string string)
  | VRef (a : addr)
  | VFunc (f : fid).

Abbreviation dict := (gmap string value).
Abbreviation heap := (gmap nat (gmap string value)).

(** Hashable values, as used for dictionary keys of the index. *)
Inductive hkey : Type :=
  | KNone
  | KStr (s : string)
  | KInt (n : Z)
  | KFunc (f : fid).

#[global] Instance hkey_eq_dec : EqDecision hkey.
Proof. solve_decision. Defined.

#[global] Instance hkey_countable : Countable hkey.
Proof.
  refine (inj_countable'
    (λ k, match k with
          | KNone => inl (inl ())
          | KStr s => inl (inr s)
          | KInt n => inr (inl n)
          | KFunc f => inr (inr f)
          end)
    (λ x, match x with
          | inl (inl _) => KNone
          | inl (inr s) => KStr s
          | inr (inl n) => KInt n
          | inr (inr f) => KFunc f
          end) _).
  by intros [].
Defined.

(** [section -> uri -> method -> record]; the records are references into
    the store. *)
Abbreviation methods := (gmap string nat).
Abbreviation index := (gmap hkey (gmap hkey (gmap string nat))).

(** A function object, as far as the documentation code looks at it:
    its [_api_doc] attribute (absent, or a dictionary), the result of
    [inspect.getdoc], and the location recorded in its code object. *)
Record function : Type := Function {
  _api_doc : option addr;
  getdoc : option string;
  co_filename : string;
  co_firstlineno : Z
}.

(** ** Exceptions and the store monad *)

Inductive exn : Type :=
  AttributeError | IndexError | KeyError | TypeError | ValueError.

Inductive result (A : Type) : Type :=
  | Ok (a : A)
  | Raise (e : exn).
Arguments Ok {A} a.
Arguments Raise {A} e.

(** A computation reads and updates the store and either returns or
    raises; the store reached by a run that raises is not described. *)
Definition M (A : Type) : Type := gmap nat (gmap string value) → result (A * gmap nat (gmap string value)).

Definition ret {A} (a : A) : M A := λ h, Ok (a, h).

Definition raise {A} (e : exn) : M A := λ _, Raise e.

Definition bind {A B} (m : M A) (k : A → M B) : M B :=
  λ h, match m h with
       | Ok (a, h') => k a h'
       | Raise e => Raise e
       end.

Notation "'let!' x ':=' m 'in' k" := (bind m (λ x, k))
  (at level 10, x pattern, m at level 100, k at level 200, right associativity).
Notation "m ';;' k" := (bind m (λ _, k))
  (at level 100, k at level 200, right associativity).

(** The dictionary stored at an address. *)
Definition deref (h : heap) (a : addr) : dict := default ∅ (h !! a).

(** [{}] *)
Definition new_dict : M addr :=
  λ h, let a := fresh (dom h) in Ok (a, <[a := ∅]> h).

(** [k in d] *)
Definition contains (a : addr) (k : string) : M bool :=
  λ h, Ok (bool_decide (is_Some (deref h a !! k)), h).

(** [d[k]] *)
Definition getitem (a : addr) (k : string) : M value :=
  λ h, match deref h a !! k with
       | Some v => Ok (v, h)
       | None => Raise KeyError
       end.

(** [d.get(k)], and [d.get(k, dflt)] *)
Definition get (a : addr) (k : string) (dflt : value) : M value :=
  λ h, Ok (default dflt (deref h a !! k), h).

(** [d[k] = v] *)
Definition setitem (a : addr) (k : string) (v : value) : M unit :=
  λ h, Ok ((), <[a := <[k := v]> (deref h a)]> h).

(** [del d[k]] *)
Definition delitem (a : addr) (k : string) : M unit :=
  λ h, match deref h a !! k with
       | Some _ => Ok ((), <[a := delete k (deref h a)]> h)
       | None => Raise KeyError
       end.

(** ** Operations on values *)

#[global] Instance value_eq_dec : EqDecision value.
Proof. solve_decision. Defined.

#[global] Instance exn_eq_dec : EqDecision exn.
Proof. solve_decision. Defined.

#[global] Instance result_eq_dec {A} `{EqDecision A} : EqDecision (result A).
Proof. solve_decision. Defined.

#[global] Instance function_eq_dec : EqDecision function.
Proof. solve_decision. Defined.

(** The one-character strings of a string, as iteration over a [str]
    yields them. *)
Fixpoint chars (s : string) : list string :=
  match s with
  | EmptyString => []
  | String c s' => String c "" :: chars s'
  end.

(** [bool(v)] *)
Definition truthy (v : value) : M bool :=
  λ h, Ok (match v with
           | VNone => false
           | VStr s => bool_decide (s ≠ "")
           | VInt n => bool_decide (n ≠ 0%Z)
           | VList l => bool_decide (l ≠ [])
           | VDict d => bool_decide (d ≠ ∅)
           | VRef a => bool_decide (deref h a ≠ ∅)
           | VFunc _ => true
           end, h).

(** [len(v)] *)
Definition len (v : value) : M nat :=
  λ h, match v with
       | VStr s => Ok (String.length s, h)
       | VList l => Ok (length l, h)
       | VDict d => Ok (size d, h)
       | VRef a => Ok (size (deref h a), h)
       | VNone | VInt _ | VFunc _ => Raise TypeError
       end.

(** [v[0]]: the first character or element of a sequence; a dictionary
    with string keys has no key [0]. *)
Definition getitem0 (v : value) : M value :=
  match v with
  | VStr (String c _) => ret (VStr (String c ""))
  | VList (x :: _) => ret (VStr x)
  | VStr EmptyString | VList [] => raise IndexError
  | VDict _ | VRef _ => raise KeyError
  | VNone | VInt _ | VFunc _ => raise TypeError
  end.

(** ['.' + v] *)
Definition dot_plus (v : value) : M string :=
  match v with
  | VStr s => ret ("." +:+ s)
  | _ => raise TypeError
  end.

(** [u += s] for a string [s], as the value bound to [u] afterwards. On a
    list Python appends the characters of [s] to the list object itself; a
    run of the collector that does so raises afterwards, when the list is
    used as a key of the index. *)
Definition iadd (u : value) (s : string) : M value :=
  match u with
  | VStr t => ret (VStr (t +:+ s))
  | VList l => ret (VList (l ++ chars s))
  | VNone | VInt _ | VDict _ | VRef _ | VFunc _ => raise TypeError
  end.

(** The key that a hashable value is, in a dictionary. *)
Definition hashable (v : value) : option hkey :=
  match v with
  | VNone => Some KNone
  | VStr s => Some (KStr s)
  | VInt n => Some (KInt n)
  | VFunc f => Some (KFunc f)
  | VList _ | VDict _ | VRef _ => None
  end.

(** [hash(v)], for use as a dictionary key. *)
Definition hash (v : value) : M hkey :=
  match hashable v with
  | Some k => ret k
  | None => raise TypeError
  end.

(** The elements that iterating over [v] yields. *)
Definition iter (v : value) : M (list value) :=
  λ h, match v with
       | VList l => Ok (VStr <$> l, h)
       | VStr s => Ok (VStr <$> chars s, h)
       | VDict d => Ok (VStr <$> (map_to_list d).*1, h)
       | VRef a => Ok (VStr <$> (map_to_list (deref h a)).*1, h)
       | VNone | VInt _ | VFunc _ => Raise TypeError
       end.

(** [v.startswith(p)] *)
Definition startswith (v : value) (p : string) : M bool :=
  match v with
  | VStr s => ret (String.prefix p s)
  | _ => raise AttributeError
  end.

(** The items that [dict.update] takes from a sequence of pairs: every
    element has to be a sequence of length two. *)
Fixpoint pairs_of (l : list string) (acc : gmap string value) : result (gmap string value) :=
  match l with
  | [] => Ok acc
  | String k (String v EmptyString) :: l' =>
      pairs_of l' (<[String k "" := VStr (String v "")]> acc)
  | _ :: _ => Raise ValueError
  end.

(** The items that [d.update(v)] writes into [d]. *)
Definition update_items (v : value) : M (gmap string value) :=
  λ h, match v with
       | VRef a => Ok (deref h a, h)
       | VDict d => Ok (VStr <$> d, h)
       | VList l => match pairs_of l ∅ with
                    | Ok items => Ok (items, h)
                    | Raise e => Raise e
                    end
       | VStr EmptyString => Ok (∅, h)
       | VStr (String _ _) => Raise ValueError
       | VNone | VInt _ | VFunc _ => Raise TypeError
       end.

(** [d.update(items)] for a table of items. *)
Definition update_with (a : addr) (items : gmap string value) : M unit :=
  λ h, Ok ((), <[a := items ∪ deref h a]> h).

(** [d.update(v)] *)
Definition dict_update (a : addr) (v : value) : M unit :=
  let! items := update_items v in
  update_with a items.

(** [name.partition('_')] *)
Fixpoint partition_underscore (name : string) : string * string * string :=
  match name with
  | EmptyString => ("", "", "")
  | String c rest =>
      if Ascii.eqb c "_"%char then ("", "_", rest)
      else let '(head, sep, tail) := partition_underscore rest in
           (String c head, sep, tail)
  end.

(** The method and the action that a member name stands for. *)
Definition method_of (name : string) : string := (partition_underscore name).1.1.
Definition action_of (name : string) : string := (partition_underscore name).2.

(** [api_docs[section][variant][method] = docs], on nested
    [defaultdict]s. *)
Definition index_set (api_docs : gmap hkey (gmap hkey (gmap string nat)))
    (section variant : hkey) (method : string) (docs : addr)
    : gmap hkey (gmap hkey (gmap string nat)) :=
  let by_uri := default ∅ (api_docs !! section) in
  let by_method := default ∅ (by_uri !! variant) in
  <[section := <[variant := <[method := docs]> by_method]> by_uri]> api_docs.

(** [api_docs[section][uri][method]], if the index has it. *)
Definition entry (api_docs : gmap hkey (gmap hkey (gmap string nat)))
    (section uri : hkey) (method : string) : option addr :=
  by_uri ← api_docs !! section;
  by_method ← by_uri !! uri;
  by_method !! method.

(** [api_docs[section][uri]], if the index has it. *)
Definition methods_at (api_docs : gmap hkey (gmap hkey (gmap string nat)))
    (section uri : hkey) : option (gmap string nat) :=
  by_uri ← api_docs !! section;
  by_uri !! uri.

(** ** The section registry *)

(** [section_info]: the section registry, identifier to title. *)
Definition section_info : gmap string string :=
  list_to_map
    [("account", "account"); ("flair", "flair");
     ("links_and_comments", "links & comments");
     ("messages", "private messages"); ("moderation", "moderation");
     ("misc", "misc"); ("listings", "listings"); ("search", "search");
     ("subreddits", "subreddits"); ("users", "users")].

(** ** Attaching metadata: [api_doc] *)

(** The function object with its [_api_doc] attribute set. *)
Definition with_api_doc (f : function) (a : addr) : function :=
  {| _api_doc := Some a;
     getdoc := getdoc f;
     co_filename := co_filename f;
     co_firstlineno := co_firstlineno f |}.

(** [v._api_doc]: only function objects carry the attribute, and only once
    metadata has been attached to them. *)
Definition getattr_api_doc (funcs : nat → function) (v : value) : result value :=
  match v with
  | VFunc g =>
      match _api_doc (funcs g) with
      | Some a => Ok (VRef a)
      | None => Raise AttributeError
      end
  | _ => Raise AttributeError
  end.

(** Lines 58-59: [if 'extends' in kwargs:
    kwargs['extends'] = kwargs['extends']._api_doc]. *)
Definition resolve_extends (funcs : nat → function) (kwargs : gmap string value)
    : result (gmap string value) :=
  match kwargs !! "extends" with
  | Some target =>
      match getattr_api_doc funcs target with
      | Ok resolved => Ok (<["extends" := resolved]> kwargs)
      | Raise e => Raise e
      end
  | None => Ok kwargs
  end.

(** A result that does not involve the store, as a computation. *)
Definition lift {A} (r : result A) : M A :=
  λ h, match r with
       | Ok a => Ok (a, h)
       | Raise e => Raise e
       end.

(** [add_metadata(api_function)] in the closure of
    [api_doc(section, **kwargs)].  The function objects are given by their
    identities; the call returns the keyword table as it leaves it (the
    closure keeps it) and the function objects with the attribute set. *)
Definition add_metadata (section : value) (kwargs : gmap string value)
    (api_function : fid) (funcs : nat → function)
    : M (gmap string value * (nat → function)) :=
  let fn := funcs api_function in
  (* doc = api_function._api_doc = getattr(api_function, '_api_doc', {}) *)
  let! doc := match _api_doc fn with
              | Some a => ret a
              | None => new_dict
              end in
  let funcs := <[api_function := with_api_doc fn doc]> funcs in
  let! kwargs := lift (resolve_extends funcs kwargs) in
  update_with doc kwargs;;
  setitem doc "section" section;;
  setitem doc "filepath" (VStr (co_filename fn));;
  setitem doc "lineno" (VInt (co_firstlineno fn));;
  ret (kwargs, funcs).

(** [api_doc(section, **kwargs)(api_function)] *)
Definition api_doc (section : value) (kwargs : gmap string value)
    (api_function : fid) (funcs : nat → function) : M (nat → function) :=
  let! r := add_metadata section kwargs api_function funcs in
  ret r.2.

(** ** The collector: [ApidocsController.docs_from_controller] *)

Section collector.

(** [os.path.relpath] on a non-empty path, which depends on the working
    directory of the process, and [config['pylons.paths']['root']]. *)
Variable relpath : string → string → string.
Variable root_dir : string.

(** [relpath(path, start)]: an empty path is rejected, and anything but a
    string has no [startswith]. *)
Definition os_relpath (path : value) (start : string) : M value :=
  let! given := truthy path in
  if given then
    match path with
    | VStr p => ret (VStr (relpath p start))
    | _ => raise AttributeError
    end
  else raise ValueError.

(** [for variant in variants: api_docs[docs['section']][variant][method] = docs] *)
Fixpoint file_under (docs : addr) (method : string) (variants : list value)
    (api_docs : gmap hkey (gmap hkey (gmap string nat)))
    : M (gmap hkey (gmap hkey (gmap string nat))) :=
  match variants with
  | [] => ret api_docs
  | variant :: rest =>
      let! section := getitem docs "section" in
      let! s := hash section in
      let! v := hash variant in
      file_under docs method rest (index_set api_docs s v method docs)
  end.

(** [inspect.getdoc(func)] as a value. *)
Definition doc_of (func : function) : value :=
  match getdoc func with
  | Some s => VStr s
  | None => VNone
  end.

(** Lines 95-101: the docstring, then the fields of the record that
    [extends] refers to, then the endpoint's own fields. *)
Definition resolve_inheritance (docs api_doc : addr) (func : function) : M unit :=
  setitem docs "doc" (doc_of func);;
  let! has_extends := contains api_doc "extends" in
  (if has_extends then
     let! parent := getitem api_doc "extends" in
     dict_update docs parent;;
     (* parameters are handled separately. *)
     setitem docs "parameters" (VDict ∅)
   else ret ());;
  dict_update docs (VRef api_doc).

(** Line 103: [docs.get('uri') or '/'.join((url_prefix, action))]. *)
Definition canonical_uri (docs : addr) (url_prefix action : string) : M value :=
  let! declared := get docs "uri" VNone in
  let! explicit := truthy declared in
  ret (if explicit then declared
       else VStr (url_prefix +:+ "/" +:+ action)).

(** Lines 104-108: a single extension goes into the URI. *)
Definition fold_extension (docs : addr) (uri : value) : M value :=
  let! has_extensions := contains docs "extensions" in
  if has_extensions then
    let! extensions := getitem docs "extensions" in
    let! n := len extensions in
    (* if only one extension was specified, add it to the URI. *)
    if bool_decide (n = 1) then
      let! extensions := getitem docs "extensions" in
      let! first := getitem0 extensions in
      let! suffix := dot_plus first in
      let! uri := iadd uri suffix in
      delitem docs "extensions";;
      ret uri
    else ret uri
  else ret uri.

(** Lines 103-109: the URI under which the record is listed. *)
Definition resolve_uri (docs : addr) (url_prefix action : string) : M value :=
  let! uri := canonical_uri docs url_prefix action in
  let! uri := fold_extension docs uri in
  setitem docs "uri" uri;;
  ret uri.

(** Lines 113-114: the file path relative to the module root. *)
Definition relativize_filepath (docs : addr) : M unit :=
  let! filepath := getitem docs "filepath" in
  let! under_root := startswith filepath root_dir in
  if under_root then
    let! filepath := getitem docs "filepath" in
    let! rel := os_relpath filepath root_dir in
    setitem docs "relfilepath" rel
  else ret ().

(** Lines 118-119: the record is filed under the URI and every variant. *)
Definition index_variants (docs : addr) (method : string) (uri : value)
    (api_docs : gmap hkey (gmap hkey (gmap string nat)))
    : M (gmap hkey (gmap hkey (gmap string nat))) :=
  let! uri_variants := get docs "uri_variants" (VList []) in
  let! variants := iter uri_variants in
  file_under docs method (uri :: variants) api_docs.

(** Lines 94-119, for a member that is documented. *)
Definition document (api_doc : addr) (func : function)
    (url_prefix method action : string)
    (api_docs : gmap hkey (gmap hkey (gmap string nat)))
    : M (gmap hkey (gmap hkey (gmap string nat))) :=
  let! docs := new_dict in
  resolve_inheritance docs api_doc func;;
  let! uri := resolve_uri docs url_prefix action in
  relativize_filepath docs;;
  index_variants docs method uri api_docs.

(** The body of the loop over the members of the controller
    (lines 88-119). *)
Definition docs_from_member (url_prefix name : string) (func : function)
    (api_docs : gmap hkey (gmap hkey (gmap string nat)))
    : M (gmap hkey (gmap hkey (gmap string nat))) :=
  let '(method, _, action) := partition_underscore name in
  if bool_decide (action = "") then ret api_docs else
  match _api_doc func with
  | None => ret api_docs
  | Some api_doc =>
      let! nonempty := truthy (VRef api_doc) in
      let! has_section := contains api_doc "section" in
      if nonempty && has_section && bool_decide (method ∈ ["GET"; "POST"])
      then document api_doc func url_prefix method action api_docs
      else ret api_docs
  end.

(** [for name, func in controller.__dict__.iteritems(): ...], on the
    members in the order in which the dictionary yields them. *)
Fixpoint docs_loop (url_prefix : string) (members : list (string * function))
    (api_docs : gmap hkey (gmap hkey (gmap string nat)))
    : M (gmap hkey (gmap hkey (gmap string nat))) :=
  match members with
  | [] => ret api_docs
  | (name, func) :: rest =>
      let! api_docs := docs_from_member url_prefix name func api_docs in
      docs_loop url_prefix rest api_docs
  end.

Definition docs_from_controller (controller : list (string * function))
    (url_prefix : string) : M (gmap hkey (gmap hkey (gmap string nat))) :=
  docs_loop url_prefix controller ∅.

(** ** The aggregator: the merge loop of [ApidocsController.GET_docs] *)

(** [for section, contents in part.iteritems():
       api_docs[section].update(contents)] *)
Definition merge_docs (api_docs part : gmap hkey (gmap hkey (gmap string nat)))
    : gmap hkey (gmap hkey (gmap string nat)) :=
  map_fold (λ section contents acc,
              <[section := contents ∪ default ∅ (acc !! section)]> acc)
           api_docs part.

(** [for controller, url_prefix in api_controllers: ...] *)
Fixpoint GET_docs_loop (api_controllers : list (list (string * function) * string))
    (api_docs : gmap hkey (gmap hkey (gmap string nat)))
    : M (gmap hkey (gmap hkey (gmap string nat))) :=
  match api_controllers with
  | [] => ret api_docs
  | (controller, url_prefix) :: rest =>
      let! part := docs_from_controller controller url_prefix in
      GET_docs_loop rest (merge_docs api_docs part)
  end.

Definition GET_docs (api_controllers : list (list (string * function) * string))
    : M (gmap hkey (gmap hkey (gmap string nat))) :=
  GET_docs_loop api_controllers ∅.

End collector.

(** ** Vocabulary of the properties *)

(** A member that the collector documents: its name is a method and an
    action, the method is GET or POST, and it carries metadata with a
    section. *)
Definition documented (h : gmap nat (gmap string value)) (name : string)
    (func : function) (api_doc : nat) (own : gmap string value) : Prop :=
  action_of name ≠ "" ∧ method_of name ∈ ["GET"; "POST"] ∧
  _api_doc func = Some api_doc ∧ h !! api_doc = Some own ∧
  is_Some (own !! "section").

(** A member that the collector passes over. *)
Definition skipped (h : gmap nat (gmap string value)) (name : string)
    (func : function) : Prop :=
  action_of name = "" ∨ method_of name ∉ ["GET"; "POST"] ∨
  _api_doc func = None ∨
  ∃ api_doc own, _api_doc func = Some api_doc ∧ h !! api_doc = Some own ∧
                 own !! "section" = None.

(** The index after filing one record under several URIs. *)
Definition filed (api_docs : gmap hkey (gmap hkey (gmap string nat)))
    (s : hkey) (method : string) (docs : nat) (uris : list hkey)
    : gmap hkey (gmap hkey (gmap string nat)) :=
  foldl (λ acc v, index_set acc s v method docs) api_docs uris.

(** The record of a function after [add_metadata]: the keyword arguments
    over what the record held, then the section and the location. *)
Definition attached (section : value) (kwargs : gmap string value)
    (fn : function) (old : gmap string value) : gmap string value :=
  <["lineno" := VInt (co_firstlineno fn)]>
    (<["filepath" := VStr (co_filename fn)]>
       (<["section" := section]> (kwargs ∪ old))).

(** The shapes of the fields that the collector computes with, as the
    docstring of [docs_from_controller] names them: [uri] a string,
    [extensions] and [uri_variants] lists of strings, [section] a string
    and [filepath] the non-empty file name of a code object. *)
Definition well_shaped (r : gmap string value) : bool :=
  match r !! "uri" with None | Some (VStr _) => true | _ => false end
  && match r !! "extensions" with None | Some (VList _) => true | _ => false end
  && match r !! "uri_variants" with None | Some (VList _) => true | _ => false end
  && match r !! "section" with Some (VStr _) => true | _ => false end
  && match r !! "filepath" with Some (VStr (String _ _)) => true | _ => false end.

(** The record after the inheritance step, for metadata whose [extends] is
    absent or a record of the store. *)
Definition resolved_of (h : gmap nat (gmap string value))
    (own : gmap string value) (func : function) : option (gmap string value) :=
  match own !! "extends" with
  | None => Some (own ∪ {["doc" := doc_of func]})
  | Some (VRef p) =>
      parent ← h !! p;
      Some (own ∪ <["parameters" := VDict ∅]> (parent ∪ {["doc" := doc_of func]}))
  | Some _ => None
  end.

(** A member that the collector passes over, or documents from metadata
    of the documented shapes. *)
Definition collectable (h : gmap nat (gmap string value))
    (member : string * function) : Prop :=
  skipped h member.1 member.2 ∨
  ∃ a own resolved,
    documented h member.1 member.2 a own ∧
    resolved_of h own member.2 = Some resolved ∧
    well_shaped resolved = true.

(** A computation that leaves the store as it is. *)
Definition read_only {A} (m : M A) : Prop :=
  ∀ h x h', m h = Ok (x, h') → h' = h.

(** ** The merged record as a function of the metadata *)

(** The URI that line 103 chooses, for a record whose [uri] is absent or a
    string. *)
Definition canonical_of (r : gmap string value) (url_prefix action : string)
    : string :=
  match r !! "uri" with
  | Some (VStr (String c v)) => String c v
  | _ => url_prefix +:+ "/" +:+ action
  end.

(** The URI and the record after lines 104-108, for a record whose
    [extensions] are absent or a list. *)
Definition folded_uri (r : gmap string value) (canon : string) : string :=
  match r !! "extensions" with
  | Some (VList [e]) => canon +:+ "." +:+ e
  | _ => canon
  end.

Definition folded_record (r : gmap string value) : gmap string value :=
  match r !! "extensions" with
  | Some (VList [_]) => delete "extensions" r
  | _ => r
  end.

(** The record after lines 113-114, for a record whose [filepath] is a
    non-empty string. *)
Definition relativized (relpath : string → string → string) (root_dir : string)
    (r : gmap string value) : gmap string value :=
  match r !! "filepath" with
  | Some (VStr fp) =>
      if String.prefix root_dir fp
      then <["relfilepath" := VStr (relpath fp root_dir)]> r
      else r
  | _ => r
  end.

(** The record that the collector files, written as a function of the
    record after the inheritance step. *)
Definition merged_record (relpath : string → string → string)
    (root_dir : string) (resolved : gmap string value)
    (url_prefix action : string) : gmap string value :=
  let uri := folded_uri resolved (canonical_of resolved url_prefix action) in
  relativized relpath root_dir (<["uri" := VStr uri]> (folded_record resolved)).

(** The URIs under which the collector files the record: its URI, then
    its variants. *)
Definition filed_uris (resolved : gmap string value)
    (url_prefix action : string) : list string :=
  folded_uri resolved (canonical_of resolved url_prefix action)
  :: match resolved !! "uri_variants" with
     | Some (VList l) => l
     | _ => []
     end.

(** The shapes of single fields. *)
Definition shaped_uri (r : gmap string value) : bool :=
  match r !! "uri" with None | Some (VStr _) => true | _ => false end.

Definition shaped_extensions (r : gmap string value) : bool :=
  match r !! "extensions" with None | Some (VList _) => true | _ => false end.

Definition shaped_variants (r : gmap string value) : bool :=
  match r !! "uri_variants" with None | Some (VList _) => true | _ => false end.

(** What holds of a record [d] that an index has under a section, a URI
    and a method: it is in the store, it has the fields that the collector
    sets, it is under its own section and under its own URI or one of its
    variants, and the method is one that the collector documents. *)
Definition well_filed (h : gmap nat (gmap string value)) (s u : hkey)
    (m : string) (d : nat) : Prop :=
  ∃ merged sec uri,
    h !! d = Some merged ∧
    m ∈ ["GET"; "POST"] ∧
    merged !! "section" = Some sec ∧ hashable sec = Some s ∧
    merged !! "uri" = Some uri ∧
    is_Some (merged !! "doc") ∧ is_Some (merged !! "filepath") ∧
    (merged !! "uri_variants" = None → hashable uri = Some u) ∧
    (∀ l, merged !! "uri_variants" = Some (VList l) →
          hashable uri = Some u ∨ u ∈ KStr <$> l).

(** ** The sources of [GET_docs] *)

(** [name.endswith(suffix)]: some tail of the name is the suffix. *)
Fixpoint endswith (name suffix : string) : bool :=
  bool_decide (name = suffix)
  || match name with
     | EmptyString => false
     | String _ rest => endswith rest suffix
     end.

(** Lines 134-136: every member of the listing module whose name ends in
    [Controller], with the empty URL prefix. The members of the module are
    taken in the order in which its dictionary yields them. *)
Definition listing_sources
    (listingcontroller : list (string * list (string * function)))
    : list (list (string * function) * string) :=
  (λ member, (member.2, ""))
    <$> filter (λ member, endswith member.1 "Controller" = true)
          listingcontroller.

(** Lines 129-136: the three controllers of the API and of the front page,
    then those of the listing module, each with its URL prefix. *)
Definition api_controllers
    (ApiController ApiminimalController FrontController : list (string * function))
    (listingcontroller : list (string * list (string * function)))
    : list (list (string * function) * string) :=
  ([ (ApiController, "/api"); (ApiminimalController, "/api");
     (FrontController, "") ]
  ++ listing_sources listingcontroller)%list.

(** The partial indexes of the sources, collected one after the other. *)
Fixpoint collect_each (relpath : string → string → string) (root_dir : string)
    (sources : list (list (string * function) * string))
    : M (list (gmap hkey (gmap hkey (gmap string nat)))) :=
  match sources with
  | [] => ret []
  | (controller, url_prefix) :: rest =>
      let! part := docs_from_controller relpath root_dir controller url_prefix in
      let! parts := collect_each relpath root_dir rest in
      ret (part :: parts)
  end.

(** The table of methods of the last index that has the URI. *)
Definition last_methods_at (parts : list (gmap hkey (gmap hkey (gmap string nat))))
    (s u : hkey) : option (gmap string nat) :=
  foldl (λ found part,
           match methods_at part s u with
           | Some by_method => Some by_method
           | None => found
           end)
        None parts.

(** ** Sample metadata *)

(** A stand-in for [os.path.relpath] on an absolute path below [start]. *)
Definition sample_relpath (path start : string) : string :=
  String.substring (S (String.length start)) (String.length path) path.

Definition api_py : string := "/srv/r2/r2/controllers/api.py".

Definition info_doc : gmap string value :=
  {[ "section" := VStr "account"; "filepath" := VStr api_py;
     "lineno" := VInt 10; "uri" := VStr "/api/info";
     "extensions" := VList ["json"];
     "uri_variants" := VList ["/api/about"];
     "parameters" := VDict {[ "id" := "fullname of a thing" ]} ]}.

Definition child_doc : gmap string value :=
  {[ "section" := VStr "bogus"; "filepath" := VStr api_py;
     "lineno" := VInt 20; "extends" := VRef 0; "uri" := VStr "/api/child" ]}.

Definition nosection_doc : gmap string value :=
  {[ "filepath" := VStr api_py; "lineno" := VInt 30;
     "uri_variants" := VList ["/api/legacy"] ]}.

Definition orphan_doc : gmap string value :=
  {[ "section" := VStr "misc"; "filepath" := VStr api_py;
     "lineno" := VInt 40; "extends" := VRef 2 ]}.

Definition empty_uri_doc : gmap string value :=
  {[ "section" := VStr "misc"; "filepath" := VStr api_py;
     "lineno" := VInt 50; "uri" := VStr "" ]}.

Definition plain_doc : gmap string value :=
  {[ "section" := VStr "account"; "filepath" := VStr api_py;
     "lineno" := VInt 60 ]}.

Definition sample_store : gmap nat (gmap string value) :=
  {[ 0 := info_doc; 1 := child_doc; 2 := nosection_doc; 3 := orphan_doc;
     4 := empty_uri_doc; 5 := plain_doc ]}.

Definition sample_function (attr : option nat) : function :=
  {| _api_doc := attr; getdoc := Some "Do it."; co_filename := api_py;
     co_firstlineno := 1 |}.

Definition sample_controller : list (string * function) :=
  [ ("GET_info", sample_function (Some 0));
    ("POST_child", sample_function (Some 1));
    ("GET_nosection", sample_function (Some 2));
    ("GET_orphan", sample_function (Some 3));
    ("POST_empty", sample_function (Some 4));
    ("helper", sample_function None);
    ("PUT_info", sample_function (Some 0)) ].

(** Function objects without metadata, and function objects of which the
    first carries [info_doc]. *)
Definition bare_functions : nat → function := λ _, sample_function None.

Definition sample_functions : nat → function :=
  λ f, sample_function (if decide (f = 0) then Some 0 else None).

(** Two sources that document the same URI under different methods. *)
Definition get_source : list (string * function) :=
  [ ("GET_foo", sample_function (Some 5)) ].

Definition post_source : list (string * function) :=
  [ ("POST_foo", sample_function (Some 5)) ].

(** The record that the [extends] of a function leads to, and its URI. *)
Definition extends_record (h : gmap nat (gmap string value))
    (funcs : nat → function) (f : nat) : option (gmap string value) :=
  c ← _api_doc (funcs f);
  child ← h !! c;
  target ← child !! "extends";
  match target with
  | VRef p => h !! p
  | _ => None
  end.

(** What a run returned, if it returned. *)
Definition returned {A} (r : result (A * gmap nat (gmap string value)))
    : option A :=
  match r with
  | Ok (a, _) => Some a
  | Raise _ => None
  end.

Definition is_ok {A} (r : result A) : bool :=
  match r with
  | Ok _ => true
  | Raise _ => false
  end.

(** The function [0] gets a URI, the function [1] extends it, and then the
    function [0] gets another URI. *)
Definition attach_twice : M (nat → function) :=
  let! funcs := api_doc (VStr "account") {[ "uri" := VStr "/api/info" ]}
                  0 bare_functions in
  api_doc (VStr "account") {[ "extends" := VFunc 0 ]} 1 funcs.

Definition attach_again : M (nat → function) :=
  let! funcs := attach_twice in
  api_doc (VStr "account") {[ "uri" := VStr "/api/changed" ]} 0 funcs.

(** The URI of the record that the [extends] of the function [1] leads to,
    after a run. *)
Definition extends_uri
    (r : result ((nat → function) * gmap nat (gmap string value)))
    : option value :=
  match r with
  | Ok (funcs, h) => extends_record h funcs 1 ≫= (.!! "uri")
  | Raise _ => None
  end.

(** ** More sample metadata *)

(** Records at the edges of what the collector reads: one without
    [filepath], one whose [uri_variants] is a string, and a record with a
    [doc] field of its own that another record extends. *)
Definition nofile_doc : gmap string value :=
  {[ "section" := VStr "misc" ]}.

Definition string_variants_doc : gmap string value :=
  {[ "section" := VStr "misc"; "filepath" := VStr api_py;
     "lineno" := VInt 70; "uri_variants" := VStr "ab" ]}.

Definition described_doc : gmap string value :=
  {[ "section" := VStr "misc"; "filepath" := VStr api_py;
     "lineno" := VInt 80; "doc" := VStr "Described." ]}.

Definition heir_doc : gmap string value :=
  {[ "section" := VStr "misc"; "filepath" := VStr api_py;
     "lineno" := VInt 90; "extends" := VRef 2 ]}.

Definition edge_store : gmap nat (gmap string value) :=
  {[ 0 := nofile_doc; 1 := string_variants_doc; 2 := described_doc;
     3 := heir_doc ]}.

(** The members of a listing module: one controller and one helper. *)
Definition sample_listing : list (string * list (string * function)) :=
  [ ("HotController", post_source); ("listing_helper", sample_controller) ].

(** A controller whose second member has a record without [filepath]. *)
Definition described_member : string * function :=
  ("GET_described", sample_function (Some 2)).

Definition nofile_member : string * function :=
  ("GET_nofile", sample_function (Some 0)).

(** A record like [empty_uri_doc] but without the field [uri], at an
    address of its own. *)
Definition absent_uri_store : gmap nat (gmap string value) :=
  <[6 := delete "uri" empty_uri_doc]> sample_store.


(** * Properties *)

(** ** The operations on sample values *)

Example partition_underscore_first :
  partition_underscore "GET_user_about" = ("GET", "_", "user_about").
Proof. reflexivity. Qed.

Example partition_underscore_none :
  partition_underscore "helper" = ("helper", "", "").
Proof. reflexivity. Qed.

Example partition_underscore_no_action :
  partition_underscore "GET_" = ("GET", "_", "").
Proof. reflexivity. Qed.

Example startswith_root :
  startswith (VStr "/srv/r2/r2/controllers/api.py") "/srv/r2" ∅ = Ok (true, ∅) ∧
  startswith (VStr "/usr/lib/python2.7/site.py") "/srv/r2" ∅ = Ok (false, ∅).
Proof. split; reflexivity. Qed.

Example pairs_of_two_characters :
  pairs_of ["ab"; "cd"] ∅ = Ok {[ "a" := VStr "b"; "c" := VStr "d" ]} ∧
  pairs_of ["abc"] ∅ = Raise ValueError.
Proof. split; [|reflexivity]. apply (bool_decide_unpack _). by vm_compute. Qed.

(** ** Running computations *)

Lemma bind_Ok {A B} (m : M A) (k : A → M B) h a h1 :
  m h = Ok (a, h1) → bind m k h = k a h1.
Proof. unfold bind. by intros ->. Qed.

Lemma bind_Raise {A B} (m : M A) (k : A → M B) h e :
  m h = Raise e → bind m k h = Raise e.
Proof. unfold bind. by intros ->. Qed.

Lemma bind_inv {A B} (m : M A) (k : A → M B) h r :
  bind m k h = Ok r → ∃ a h1, m h = Ok (a, h1) ∧ k a h1 = Ok r.
Proof.
  unfold bind. destruct (m h) as [[a h1]|e]; [|done].
  intros Hk. by exists a, h1.
Qed.

Lemma deref_lookup (h : gmap nat (gmap string value)) a r :
  h !! a = Some r → deref h a = r.
Proof. unfold deref. by intros ->. Qed.

Lemma deref_insert (h : gmap nat (gmap string value)) a r :
  deref (<[a := r]> h) a = r.
Proof. unfold deref. by rewrite lookup_insert_eq. Qed.

Lemma deref_insert_ne (h : gmap nat (gmap string value)) a b r :
  a ≠ b → deref (<[a := r]> h) b = deref h b.
Proof. intros. unfold deref. by rewrite lookup_insert_ne. Qed.

(** The operations on a record that is in the store. *)
Section record_ops.
Context (h : gmap nat (gmap string value)) (a : nat) (r : gmap string value).
Hypothesis Hr : h !! a = Some r.

Lemma contains_at k :
  contains a k h = Ok (bool_decide (is_Some (r !! k)), h).
Proof using Hr. unfold contains. by rewrite (deref_lookup _ _ _ Hr). Qed.

Lemma getitem_at k v : r !! k = Some v → getitem a k h = Ok (v, h).
Proof using Hr. unfold getitem. rewrite (deref_lookup _ _ _ Hr). by intros ->. Qed.

Lemma getitem_missing k : r !! k = None → getitem a k h = Raise KeyError.
Proof using Hr. unfold getitem. rewrite (deref_lookup _ _ _ Hr). by intros ->. Qed.

Lemma get_at k dflt : get a k dflt h = Ok (default dflt (r !! k), h).
Proof using Hr. unfold get. by rewrite (deref_lookup _ _ _ Hr). Qed.

Lemma setitem_at k v : setitem a k v h = Ok ((), <[a := <[k := v]> r]> h).
Proof using Hr. unfold setitem. by rewrite (deref_lookup _ _ _ Hr). Qed.

Lemma delitem_at k v :
  r !! k = Some v → delitem a k h = Ok ((), <[a := delete k r]> h).
Proof using Hr. unfold delitem. rewrite (deref_lookup _ _ _ Hr). by intros ->. Qed.

Lemma update_with_at items :
  update_with a items h = Ok ((), <[a := items ∪ r]> h).
Proof using Hr. unfold update_with. by rewrite (deref_lookup _ _ _ Hr). Qed.

Lemma update_items_ref : update_items (VRef a) h = Ok (r, h).
Proof using Hr. unfold update_items. by rewrite (deref_lookup _ _ _ Hr). Qed.
End record_ops.

(** ** Inheritance (lines 95-101) *)

Section inheritance.
Context (h : gmap nat (gmap string value)) (docs api_doc : nat).
Context (r0 own : gmap string value) (func : function).
Hypothesis Hdocs : h !! docs = Some r0.
Hypothesis Hown : h !! api_doc = Some own.
Hypothesis Hfresh : docs ≠ api_doc.

Lemma resolve_inheritance_plain :
  own !! "extends" = None →
  resolve_inheritance docs api_doc func h
  = Ok ((), <[docs := own ∪ <["doc" := doc_of func]> r0]> h).
Proof using Hdocs Hown Hfresh.
  intros Hext. unfold resolve_inheritance.
  rewrite (bind_Ok _ _ _ _ _ (setitem_at _ _ _ Hdocs _ _)).
  erewrite bind_Ok; last first.
  { apply contains_at. by rewrite lookup_insert_ne. }
  rewrite Hext, bool_decide_eq_false_2 by (by intros [??]).
  erewrite bind_Ok by done.
  unfold dict_update.
  erewrite bind_Ok; last first.
  { apply update_items_ref. by rewrite lookup_insert_ne. }
  erewrite update_with_at by apply lookup_insert_eq.
  by rewrite insert_insert_eq.
Qed.

Lemma resolve_inheritance_extends p parent :
  own !! "extends" = Some (VRef p) →
  h !! p = Some parent → docs ≠ p →
  resolve_inheritance docs api_doc func h
  = Ok ((), <[docs := own ∪ <["parameters" := VDict ∅]>
                               (parent ∪ <["doc" := doc_of func]> r0)]> h).
Proof using Hdocs Hown Hfresh.
  intros Hext Hp Hne. unfold resolve_inheritance.
  rewrite (bind_Ok _ _ _ _ _ (setitem_at _ _ _ Hdocs _ _)).
  erewrite bind_Ok; last first.
  { apply contains_at. by rewrite lookup_insert_ne. }
  rewrite Hext, bool_decide_eq_true_2 by eauto.
  erewrite bind_Ok; last first.
  { erewrite bind_Ok; last first.
    { eapply getitem_at; [by rewrite lookup_insert_ne|done]. }
    erewrite bind_Ok; last first.
    { unfold dict_update. erewrite bind_Ok; last first.
      { apply update_items_ref. by rewrite lookup_insert_ne. }
      apply update_with_at, lookup_insert_eq. }
    apply setitem_at, lookup_insert_eq. }
  unfold dict_update.
  erewrite bind_Ok; last first.
  { apply update_items_ref. by rewrite !lookup_insert_ne. }
  erewrite update_with_at by apply lookup_insert_eq.
  by rewrite !insert_insert_eq.
Qed.
End inheritance.

(** ** The URI of a record (lines 103-109) *)

Section uri.
Context (h : gmap nat (gmap string value)) (docs : nat) (r : gmap string value).
Context (url_prefix action : string).
Hypothesis Hdocs : h !! docs = Some r.

Lemma canonical_uri_absent :
  r !! "uri" = None →
  canonical_uri docs url_prefix action h
  = Ok (VStr (url_prefix +:+ "/" +:+ action), h).
Proof using Hdocs.
  intros Hu. unfold canonical_uri.
  rewrite (bind_Ok _ _ _ _ _ (get_at _ _ _ Hdocs _ _)), Hu. done.
Qed.

Lemma canonical_uri_str u :
  r !! "uri" = Some (VStr u) →
  canonical_uri docs url_prefix action h
  = Ok (VStr (if bool_decide (u ≠ "") then u
              else url_prefix +:+ "/" +:+ action), h).
Proof using Hdocs.
  intros Hu. unfold canonical_uri.
  rewrite (bind_Ok _ _ _ _ _ (get_at _ _ _ Hdocs _ _)), Hu.
  unfold bind, truthy, ret; simpl. by case_bool_decide.
Qed.

Lemma fold_extension_absent uri :
  r !! "extensions" = None → fold_extension docs uri h = Ok (uri, h).
Proof using Hdocs.
  intros He. unfold fold_extension.
  rewrite (bind_Ok _ _ _ _ _ (contains_at _ _ _ Hdocs _)), He.
  by rewrite bool_decide_eq_false_2 by (by intros [??]).
Qed.

Lemma fold_extension_one u e :
  r !! "extensions" = Some (VList [e]) →
  fold_extension docs (VStr u) h
  = Ok (VStr (u +:+ "." +:+ e), <[docs := delete "extensions" r]> h).
Proof using Hdocs.
  intros He. unfold fold_extension.
  rewrite (bind_Ok _ _ _ _ _ (contains_at _ _ _ Hdocs _)), He.
  rewrite bool_decide_eq_true_2 by eauto.
  rewrite (bind_Ok _ _ _ _ _ (getitem_at _ _ _ Hdocs _ _ He)).
  unfold bind at 1; simpl.
  rewrite (bind_Ok _ _ _ _ _ (getitem_at _ _ _ Hdocs _ _ He)).
  unfold bind at 1; simpl. unfold bind at 1; simpl. unfold bind at 1; simpl.
  by rewrite (bind_Ok _ _ _ _ _ (delitem_at _ _ _ Hdocs _ _ He)).
Qed.

Lemma fold_extension_many uri l :
  r !! "extensions" = Some (VList l) → length l ≠ 1 →
  fold_extension docs uri h = Ok (uri, h).
Proof using Hdocs.
  intros He Hl. unfold fold_extension.
  rewrite (bind_Ok _ _ _ _ _ (contains_at _ _ _ Hdocs _)), He.
  rewrite bool_decide_eq_true_2 by eauto.
  rewrite (bind_Ok _ _ _ _ _ (getitem_at _ _ _ Hdocs _ _ He)).
  unfold bind at 1; simpl. by rewrite bool_decide_eq_false_2.
Qed.
End uri.

Lemma resolve_uri_list (h : gmap nat (gmap string value)) docs
    (r : gmap string value) url_prefix action u l :
  h !! docs = Some r →
  canonical_uri docs url_prefix action h = Ok (VStr u, h) →
  r !! "extensions" = Some (VList l) →
  let uri := VStr match l with
                  | [e] => u +:+ "." +:+ e
                  | _ => u
                  end in
  let folded := match l with
                | [_] => delete "extensions" r
                | _ => r
                end in
  resolve_uri docs url_prefix action h
  = Ok (uri, <[docs := <["uri" := uri]> folded]> h).
Proof.
  intros Hdocs Hcanon Hext. unfold resolve_uri.
  rewrite (bind_Ok _ _ _ _ _ Hcanon).
  destruct (decide (length l = 1)) as [Hone|Hmany].
  - destruct l as [|e [|??]]; try done.
    rewrite (bind_Ok _ _ _ _ _ (fold_extension_one _ _ _ Hdocs _ _ Hext)).
    erewrite bind_Ok by (apply setitem_at, lookup_insert_eq).
    by rewrite insert_insert_eq.
  - rewrite (bind_Ok _ _ _ _ _ (fold_extension_many _ _ _ Hdocs _ _ Hext Hmany)).
    rewrite (bind_Ok _ _ _ _ _ (setitem_at _ _ _ Hdocs _ _)).
    by destruct l as [|e [|??]].
Qed.

(** ** What a run that returns has done *)

Lemma read_only_ret {A} (a : A) : read_only (ret a).
Proof. intros h x h' ?. unfold ret in *. by simplify_eq. Qed.

Lemma read_only_raise {A} e : read_only (raise (A:=A) e).
Proof. by intros h x h' ?. Qed.

Lemma read_only_contains a k : read_only (contains a k).
Proof. intros h x h' ?. unfold contains in *. by simplify_eq. Qed.

Lemma read_only_getitem a k : read_only (getitem a k).
Proof. intros h x h' ?. unfold getitem in *. case_match; by simplify_eq. Qed.

Lemma read_only_get a k dflt : read_only (get a k dflt).
Proof. intros h x h' ?. unfold get in *. by simplify_eq. Qed.

Lemma read_only_truthy v : read_only (truthy v).
Proof. intros h x h' ?. unfold truthy in *. by simplify_eq. Qed.

Lemma read_only_len v : read_only (len v).
Proof. intros h x h' ?. unfold len in *. repeat case_match; by simplify_eq. Qed.

Lemma read_only_getitem0 v : read_only (getitem0 v).
Proof.
  intros h x h' ?. unfold getitem0, ret, raise in *.
  repeat case_match; by simplify_eq.
Qed.

Lemma read_only_dot_plus v : read_only (dot_plus v).
Proof.
  intros h x h' ?. unfold dot_plus, ret, raise in *.
  repeat case_match; by simplify_eq.
Qed.

Lemma read_only_iadd u s : read_only (iadd u s).
Proof.
  intros h x h' ?. unfold iadd, ret, raise in *.
  repeat case_match; by simplify_eq.
Qed.

Lemma read_only_hash v : read_only (hash v).
Proof.
  intros h x h' ?. unfold hash, ret, raise in *.
  repeat case_match; by simplify_eq.
Qed.

Lemma read_only_iter v : read_only (iter v).
Proof. intros h x h' ?. unfold iter in *. repeat case_match; by simplify_eq. Qed.

Lemma read_only_startswith v p : read_only (startswith v p).
Proof.
  intros h x h' ?. unfold startswith, ret, raise in *.
  repeat case_match; by simplify_eq.
Qed.

Lemma read_only_update_items v : read_only (update_items v).
Proof.
  intros h x h' ?. unfold update_items in *.
  repeat case_match; by simplify_eq.
Qed.

Lemma read_only_bind {A B} (m : M A) (k : A → M B) :
  read_only m → (∀ a, read_only (k a)) → read_only (bind m k).
Proof.
  intros Hm Hk h x h' Hrun.
  apply bind_inv in Hrun as (a & h1 & E & Hrun).
  apply Hm in E as ->. by apply Hk in Hrun.
Qed.

Lemma read_only_os_relpath relpath path start :
  read_only (os_relpath relpath path start).
Proof.
  apply read_only_bind; [apply read_only_truthy|].
  intros []; [|apply read_only_raise].
  destruct path; auto using read_only_ret, read_only_raise.
Qed.

Lemma read_only_canonical_uri docs url_prefix action :
  read_only (canonical_uri docs url_prefix action).
Proof.
  apply read_only_bind; [apply read_only_get|]. intros ?.
  apply read_only_bind; [apply read_only_truthy|]. intros ?.
  apply read_only_ret.
Qed.

(** [inv_bind H] splits a run [bind m k h = Ok r] into the run of [m] and
    the run of [k]; [inv_read H] uses that a run did not change the
    store. *)
Ltac inv_bind H :=
  let a := fresh "x" in
  let h := fresh "h" in
  let E := fresh "E" in
  apply bind_inv in H as (a & h & E & H).

Ltac case_if H :=
  match type of H with
  | context [if ?b then _ else _] => destruct b
  end.

Ltac inv_read H :=
  first
    [ apply read_only_contains in H
    | apply read_only_getitem in H
    | apply read_only_get in H
    | apply read_only_truthy in H
    | apply read_only_len in H
    | apply read_only_getitem0 in H
    | apply read_only_dot_plus in H
    | apply read_only_iadd in H
    | apply read_only_hash in H
    | apply read_only_iter in H
    | apply read_only_startswith in H
    | apply read_only_update_items in H
    | apply read_only_os_relpath in H
    | apply read_only_canonical_uri in H
    | apply read_only_ret in H ];
  subst.

Lemma resolve_inheritance_inv (h h' : gmap nat (gmap string value)) d a
    (r0 own : gmap string value) func :
  h !! d = Some r0 → h !! a = Some own → d ≠ a →
  resolve_inheritance d a func h = Ok ((), h') →
  ∃ rest, h' = <[d := own ∪ rest]> h.
Proof.
  intros Hd Ha Hne Hrun. unfold resolve_inheritance in Hrun.
  rewrite (bind_Ok _ _ _ _ _ (setitem_at _ _ _ Hd _ _)) in Hrun.
  inv_bind Hrun. inv_read E.
  inv_bind Hrun.
  assert (∃ r1, h0 = <[d := r1]> h) as [r1 ->].
  { case_if E.
    - inv_bind E. inv_read E0.
      inv_bind E. unfold dict_update in E0. inv_bind E0. inv_read E1.
      erewrite update_with_at in E0 by apply lookup_insert_eq.
      simplify_eq.
      erewrite setitem_at in E by apply lookup_insert_eq. simplify_eq.
      rewrite !insert_insert_eq. by eexists.
    - inv_read E. by eexists. }
  unfold dict_update in Hrun. inv_bind Hrun.
  pose proof E0 as E1. inv_read E1.
  erewrite update_items_ref in E0 by (by rewrite lookup_insert_ne).
  simplify_eq.
  erewrite update_with_at in Hrun by apply lookup_insert_eq.
  simplify_eq. rewrite insert_insert_eq. by eexists.
Qed.

Lemma fold_extension_inv (h h' : gmap nat (gmap string value)) d
    (r : gmap string value) uri uri' :
  h !! d = Some r →
  fold_extension d uri h = Ok (uri', h') →
  ∃ r', h' = <[d := r']> h ∧ ∀ k, k ≠ "extensions" → r' !! k = r !! k.
Proof.
  intros Hd Hrun. unfold fold_extension in Hrun.
  inv_bind Hrun. inv_read E. case_if Hrun.
  - inv_bind Hrun. inv_read E.
    inv_bind Hrun. inv_read E. case_bool_decide.
    + inv_bind Hrun. inv_read E.
      inv_bind Hrun. inv_read E.
      inv_bind Hrun. inv_read E.
      inv_bind Hrun. inv_read E.
      inv_bind Hrun. unfold delitem in E.
      rewrite (deref_lookup _ _ _ Hd) in E. case_match; [|done].
      simplify_eq. inv_read Hrun.
      eexists. split; [done|]. intros k ?. by rewrite lookup_delete_ne.
    + inv_read Hrun. exists r. split; [by rewrite insert_id|done].
  - inv_read Hrun. exists r. split; [by rewrite insert_id|done].
Qed.

Lemma resolve_uri_inv (h h' : gmap nat (gmap string value)) d
    (r : gmap string value) url_prefix action uri :
  h !! d = Some r →
  resolve_uri d url_prefix action h = Ok (uri, h') →
  ∃ r', h' = <[d := r']> h ∧ r' !! "uri" = Some uri ∧
        ∀ k, k ≠ "uri" → k ≠ "extensions" → r' !! k = r !! k.
Proof.
  intros Hd Hrun. unfold resolve_uri in Hrun.
  inv_bind Hrun. inv_read E.
  inv_bind Hrun.
  apply (fold_extension_inv _ _ _ _ _ _ Hd) in E as (r1 & -> & Hr1).
  erewrite bind_Ok in Hrun by (apply setitem_at, lookup_insert_eq).
  unfold ret in Hrun. simplify_eq. rewrite insert_insert_eq.
  eexists. split; [done|]. split; [by rewrite lookup_insert_eq|].
  intros k ??. rewrite lookup_insert_ne by done. by apply Hr1.
Qed.

Lemma relativize_filepath_inv relpath root_dir
    (h h' : gmap nat (gmap string value)) d (r : gmap string value) :
  h !! d = Some r →
  relativize_filepath relpath root_dir d h = Ok ((), h') →
  ∃ r', h' = <[d := r']> h ∧ ∀ k, k ≠ "relfilepath" → r' !! k = r !! k.
Proof.
  intros Hd Hrun. unfold relativize_filepath in Hrun.
  inv_bind Hrun. inv_read E.
  inv_bind Hrun. inv_read E. case_if Hrun.
  - inv_bind Hrun. inv_read E.
    inv_bind Hrun. inv_read E.
    rewrite (setitem_at _ _ _ Hd) in Hrun. simplify_eq.
    eexists. split; [done|]. intros k ?. by rewrite lookup_insert_ne.
  - inv_read Hrun. exists r. split; [by rewrite insert_id|done].
Qed.

(** ** Filing into the index (lines 118-119) *)

Lemma entry_index_set (api_docs : gmap hkey (gmap hkey (gmap string nat)))
    s v m d s' v' m' :
  entry (index_set api_docs s v m d) s' v' m'
  = if decide (s' = s ∧ v' = v ∧ m' = m) then Some d
    else entry api_docs s' v' m'.
Proof.
  unfold entry, index_set.
  destruct (decide (s' = s)) as [->|Hs].
  - rewrite lookup_insert_eq; simpl.
    destruct (decide (v' = v)) as [->|Hv].
    + rewrite lookup_insert_eq; simpl.
      destruct (decide (m' = m)) as [->|Hm].
      * rewrite lookup_insert_eq. by rewrite decide_True.
      * rewrite lookup_insert_ne by done.
        rewrite decide_False by (by intros (?&?&?)).
        destruct (api_docs !! s) as [by_uri|]; simpl; [|done].
        by destruct (by_uri !! v).
    + rewrite lookup_insert_ne by done.
      rewrite decide_False by (by intros (?&?&?)).
      by destruct (api_docs !! s).
  - rewrite lookup_insert_ne by done.
    by rewrite decide_False by (by intros (?&?&?)).
Qed.

Lemma entry_filed uris (api_docs : gmap hkey (gmap hkey (gmap string nat)))
    s m d s' v' m' :
  entry (filed api_docs s m d uris) s' v' m'
  = if decide (s' = s ∧ v' ∈ uris ∧ m' = m) then Some d
    else entry api_docs s' v' m'.
Proof.
  revert api_docs. induction uris as [|v uris IH]; intros api_docs; simpl.
  - rewrite decide_False; [done|]. intros (_ & Hin & _). by apply elem_of_nil in Hin.
  - unfold filed in *. simpl. rewrite IH, entry_index_set.
    destruct (decide (s' = s ∧ v' ∈ uris ∧ m' = m)) as [(-> & Hin & ->)|Hn].
    + rewrite decide_True; [done|]. split_and!; [done| |done].
      apply elem_of_cons. by right.
    + destruct (decide (s' = s ∧ v' = v ∧ m' = m)) as [(-> & -> & ->)|Hn'].
      * rewrite decide_True; [done|]. split_and!; [done| |done].
        apply elem_of_cons. by left.
      * rewrite decide_False; [done|]. intros (-> & Hin & ->).
        apply elem_of_cons in Hin as [->|Hin]; [by apply Hn'|by apply Hn].
Qed.

Lemma file_under_filed (h : gmap nat (gmap string value)) docs
    (r : gmap string value) method sec s variants uris api_docs :
  h !! docs = Some r →
  r !! "section" = Some sec → hashable sec = Some s →
  mapM hashable variants = Some uris →
  file_under docs method variants api_docs h
  = Ok (filed api_docs s method docs uris, h).
Proof.
  intros Hd Hsec Hs. revert uris api_docs.
  induction variants as [|v variants IH]; intros uris api_docs Huris.
  - injection Huris as <-. done.
  - simpl in Huris. destruct (hashable v) as [k|] eqn:Hk; [|done].
    simpl in Huris.
    destruct (mapM hashable variants) as [ks|] eqn:Hks; [|done].
    injection Huris as <-. simpl.
    rewrite (bind_Ok _ _ _ _ _ (getitem_at _ _ _ Hd _ _ Hsec)).
    unfold hash at 1. rewrite Hs. unfold bind at 1, ret at 1.
    unfold hash at 1. rewrite Hk. unfold bind at 1, ret at 1.
    by apply IH.
Qed.

Lemma file_under_inv (h h' : gmap nat (gmap string value)) docs
    (r : gmap string value) method variants api_docs api_docs' :
  h !! docs = Some r →
  variants ≠ [] →
  file_under docs method variants api_docs h = Ok (api_docs', h') →
  ∃ sec s uris,
    r !! "section" = Some sec ∧ hashable sec = Some s ∧
    mapM hashable variants = Some uris ∧
    h' = h ∧ api_docs' = filed api_docs s method docs uris.
Proof.
  intros Hd. revert api_docs.
  induction variants as [|v variants IH]; intros api_docs Hne Hrun; [done|].
  simpl in Hrun.
  inv_bind Hrun. pose proof E as E'. inv_read E'.
  unfold getitem in E. rewrite (deref_lookup _ _ _ Hd) in E.
  destruct (r !! "section") as [sec|] eqn:Hsec; [|done].
  injection E as <-.
  inv_bind Hrun. pose proof E as E'. inv_read E'.
  unfold hash in E. destruct (hashable sec) as [s|] eqn:Hs; [|done].
  unfold ret in E. injection E as <-.
  inv_bind Hrun. pose proof E as E'. inv_read E'.
  unfold hash in E. destruct (hashable v) as [k|] eqn:Hk; [|done].
  unfold ret in E. injection E as <-.
  destruct variants as [|v' variants].
  - simpl in Hrun. unfold ret in Hrun. injection Hrun as <- <-.
    exists sec, s, [k]. simpl. by rewrite Hk.
  - apply IH in Hrun as (sec' & s' & uris & Hsec' & Hs' & Huris & -> & ->);
      [|done].
    assert (sec' = sec) as -> by congruence.
    assert (s' = s) as -> by congruence.
    exists sec, s, (k :: uris). split_and!; try done.
    change (mapM hashable (v :: v' :: variants))
      with (k ← hashable v; ks ← mapM hashable (v' :: variants); mret (k :: ks)).
    by rewrite Hk, Huris.
Qed.

Lemma index_variants_inv (h h' : gmap nat (gmap string value)) d
    (r : gmap string value) method uri api_docs api_docs' :
  h !! d = Some r →
  index_variants d method uri api_docs h = Ok (api_docs', h') →
  ∃ sec s u variants uris,
    r !! "section" = Some sec ∧ hashable sec = Some s ∧
    hashable uri = Some u ∧
    iter (default (VList []) (r !! "uri_variants")) h = Ok (variants, h) ∧
    mapM hashable variants = Some uris ∧
    h' = h ∧ api_docs' = filed api_docs s method d (u :: uris).
Proof.
  intros Hd Hrun. unfold index_variants in Hrun.
  rewrite (bind_Ok _ _ _ _ _ (get_at _ _ _ Hd _ _)) in Hrun.
  inv_bind Hrun. pose proof E as E'. inv_read E'.
  apply (file_under_inv _ _ _ _ _ _ _ _ Hd) in Hrun
    as (sec & s & uris & Hsec & Hs & Huris & -> & ->); [|done].
  simpl in Huris.
  destruct (hashable uri) as [u|] eqn:Hu; [|done]. simpl in Huris.
  destruct (mapM hashable x) as [ks|] eqn:Hks; [|done].
  injection Huris as <-.
  by exists sec, s, u, x, ks.
Qed.

(** ** One member of the controller (lines 88-119) *)

Section member.
Context (relpath : string → string → string) (root_dir : string).
Context (url_prefix : string).

Lemma docs_from_member_unfold name func api_docs :
  docs_from_member relpath root_dir url_prefix name func api_docs
  = if bool_decide (action_of name = "") then ret api_docs else
    match _api_doc func with
    | None => ret api_docs
    | Some api_doc =>
        let! nonempty := truthy (VRef api_doc) in
        let! has_section := contains api_doc "section" in
        if nonempty && has_section
           && bool_decide (method_of name ∈ ["GET"; "POST"])
        then document relpath root_dir api_doc func url_prefix
               (method_of name) (action_of name) api_docs
        else ret api_docs
    end.
Proof.
  unfold docs_from_member, method_of, action_of.
  by destruct (partition_underscore name) as [[method sep] action].
Qed.

Lemma docs_from_member_documented h name func api_doc own api_docs :
  documented h name func api_doc own →
  docs_from_member relpath root_dir url_prefix name func api_docs h
  = document relpath root_dir api_doc func url_prefix
      (method_of name) (action_of name) api_docs h.
Proof.
  intros (Hact & Hmeth & Hattr & Hown & Hsec).
  rewrite docs_from_member_unfold.
  rewrite bool_decide_eq_false_2, Hattr by done.
  unfold bind at 1, truthy at 1. unfold bind at 1.
  rewrite (contains_at _ _ _ Hown).
  rewrite (deref_lookup _ _ _ Hown).
  rewrite !bool_decide_eq_true_2; [done..|].
  intros ->. rewrite lookup_empty in Hsec. by destruct Hsec.
Qed.

Lemma docs_from_member_skipped h name func api_docs :
  skipped h name func →
  docs_from_member relpath root_dir url_prefix name func api_docs h
  = Ok (api_docs, h).
Proof.
  intros Hskip. rewrite docs_from_member_unfold.
  case_bool_decide as Hact; [done|].
  destruct (_api_doc func) as [a|] eqn:Hattr; [|done].
  unfold bind at 1, truthy at 1. unfold bind at 1, contains at 1.
  destruct Hskip as [?|[Hm|[?|(a' & own & ? & Hown & Hsec)]]];
    try congruence.
  - rewrite (bool_decide_eq_false_2 _ Hm). by rewrite andb_false_r.
  - simplify_eq. rewrite (deref_lookup _ _ _ Hown), Hsec.
    rewrite (bool_decide_eq_false_2 (is_Some None)) by (by intros [??]).
    by rewrite andb_false_r.
Qed.

Lemma document_inv (h h' : gmap nat (gmap string value)) api_doc
    (own : gmap string value) func method action api_docs api_docs' :
  h !! api_doc = Some own →
  document relpath root_dir api_doc func url_prefix method action api_docs h
  = Ok (api_docs', h') →
  let docs := fresh (dom h) in
  ∃ resolved merged sec s uri u variants uris,
    resolve_inheritance docs api_doc func (<[docs := ∅]> h)
    = Ok ((), <[docs := resolved]> h) ∧
    (∀ k v, own !! k = Some v → resolved !! k = Some v) ∧
    h' = <[docs := merged]> h ∧
    (∀ k, k ≠ "uri" → k ≠ "extensions" → k ≠ "relfilepath" →
          merged !! k = resolved !! k) ∧
    merged !! "uri" = Some uri ∧
    merged !! "section" = Some sec ∧ hashable sec = Some s ∧
    hashable uri = Some u ∧
    iter (default (VList []) (merged !! "uri_variants")) h'
    = Ok (variants, h') ∧
    mapM hashable variants = Some uris ∧
    api_docs' = filed api_docs s method docs (u :: uris).
Proof.
  intros Hown Hrun docs. unfold document in Hrun.
  assert (docs ∉ dom h) as Hfresh by apply is_fresh.
  assert (docs ≠ api_doc) as Hne.
  { intros ->. apply Hfresh, elem_of_dom. eauto. }
  unfold bind at 1, new_dict at 1 in Hrun. fold docs in Hrun.
  inv_bind Hrun. destruct x.
  pose proof E as Hstage.
  assert (<[docs := ∅]> h !! docs = Some ∅) as Hd0 by apply lookup_insert_eq.
  assert (<[docs := ∅]> h !! api_doc = Some own) as Hown0
    by (by rewrite lookup_insert_ne).
  apply (resolve_inheritance_inv _ _ _ _ _ _ _ Hd0 Hown0 Hne) in E
    as [rest ->].
  rewrite insert_insert_eq in Hstage, Hrun.
  inv_bind Hrun.
  apply (resolve_uri_inv _ _ _ _ _ _ _ (lookup_insert_eq _ _ _)) in E
    as (r1 & -> & Huri & Hr1).
  rewrite insert_insert_eq in Hrun.
  inv_bind Hrun. destruct x0.
  apply (relativize_filepath_inv _ _ _ _ _ _ (lookup_insert_eq _ _ _)) in E
    as (r2 & -> & Hr2).
  rewrite insert_insert_eq in Hrun.
  apply (index_variants_inv _ _ _ _ _ _ _ _ (lookup_insert_eq _ _ _)) in Hrun
    as (sec & s & u & variants & uris & ? & ? & ? & ? & ? & -> & ->).
  exists (own ∪ rest), r2, sec, s, x, u, variants, uris.
  split_and!; try done.
  - intros k v Hk. by apply lookup_union_Some_l.
  - intros k ???. rewrite Hr2, Hr1 by done. done.
  - rewrite Hr2 by done. done.
Qed.
Lemma document_uri (h h' : gmap nat (gmap string value)) api_doc func
    method action api_docs api_docs' resolved :
  document relpath root_dir api_doc func url_prefix method action api_docs h
  = Ok (api_docs', h') →
  let docs := fresh (dom h) in
  resolve_inheritance docs api_doc func (<[docs := ∅]> h)
  = Ok ((), <[docs := resolved]> h) →
  ∃ uri h2 merged,
    resolve_uri docs url_prefix action (<[docs := resolved]> h)
    = Ok (uri, h2) ∧
    h' !! docs = Some merged ∧ merged !! "uri" = Some uri.
Proof.
  intros Hrun docs Hstage. unfold document in Hrun.
  unfold bind at 1, new_dict at 1 in Hrun. fold docs in Hrun.
  rewrite (bind_Ok _ _ _ _ _ Hstage) in Hrun.
  inv_bind Hrun. pose proof E as Huri.
  apply (resolve_uri_inv _ _ _ _ _ _ _ (lookup_insert_eq _ _ _)) in E
    as (r1 & -> & Hr1 & _).
  rewrite insert_insert_eq in Hrun.
  inv_bind Hrun. destruct x0.
  apply (relativize_filepath_inv _ _ _ _ _ _ (lookup_insert_eq _ _ _)) in E
    as (r2 & -> & Hr2).
  rewrite insert_insert_eq in Hrun.
  apply (index_variants_inv _ _ _ _ _ _ _ _ (lookup_insert_eq _ _ _)) in Hrun
    as (? & ? & ? & ? & ? & _ & _ & _ & _ & _ & -> & _).
  eexists x, _, r2. split_and!; [exact Huri| |].
  - apply lookup_insert_eq.
  - by rewrite Hr2.
Qed.
End member.

(** ** The loop over the members (lines 87-121) *)

Section controller.
Context (relpath : string → string → string) (root_dir : string).
Context (url_prefix : string).

Lemma docs_from_member_cases (h h' : gmap nat (gmap string value)) name func
    api_docs api_docs' :
  docs_from_member relpath root_dir url_prefix name func api_docs h
  = Ok (api_docs', h') →
  (api_docs' = api_docs ∧ h' = h) ∨
  ∃ api_doc own,
    documented h name func api_doc own ∧
    document relpath root_dir api_doc func url_prefix
      (method_of name) (action_of name) api_docs h = Ok (api_docs', h').
Proof.
  rewrite docs_from_member_unfold.
  case_bool_decide as Hact.
  { intros [= <- <-]. by left. }
  destruct (_api_doc func) as [a|] eqn:Hattr.
  2:{ intros [= <- <-]. by left. }
  unfold bind at 1, truthy at 1. unfold bind at 1, contains at 1.
  case_bool_decide as Hne; simpl.
  2:{ intros [= <- <-]. by left. }
  case_bool_decide as Hsec; simpl.
  2:{ intros [= <- <-]. by left. }
  case_bool_decide as Hmeth; simpl.
  2:{ intros [= <- <-]. by left. }
  intros Hrun. right.
  unfold deref in Hsec.
  destruct (h !! a) as [own|] eqn:Hown; simpl in Hsec.
  2:{ rewrite lookup_empty in Hsec. by destruct Hsec. }
  by exists a, own.
Qed.

(** The records that were in the store stay as they were; the record of
    a member that is documented is a new one. *)
Lemma docs_from_member_frame (h h' : gmap nat (gmap string value)) name func
    api_docs api_docs' :
  docs_from_member relpath root_dir url_prefix name func api_docs h
  = Ok (api_docs', h') →
  h ⊆ h'.
Proof.
  intros [[_ ->]|(a & own & Hdoc & Hrun)]%docs_from_member_cases; [done|].
  destruct Hdoc as (_ & _ & _ & Hown & _).
  apply (document_inv _ _ _ _ _ _ _ _ _ _ _ _ Hown) in Hrun
    as (resolved & merged & _ & _ & _ & _ & _ & _ & _ & _ & -> & _).
  apply insert_subseteq, not_elem_of_dom, is_fresh.
Qed.

Lemma docs_loop_frame members : ∀ (h h' : gmap nat (gmap string value))
    api_docs api_docs',
  docs_loop relpath root_dir url_prefix members api_docs h
  = Ok (api_docs', h') →
  h ⊆ h'.
Proof.
  induction members as [|[name func] members IH];
    intros h h' api_docs api_docs' Hrun; simpl in Hrun.
  - unfold ret in Hrun. by simplify_eq.
  - inv_bind Hrun. apply docs_from_member_frame in E.
    apply IH in Hrun. by etrans.
Qed.

Lemma documented_frame (h h' : gmap nat (gmap string value)) name func a own :
  h ⊆ h' → documented h name func a own → documented h' name func a own.
Proof.
  intros Hsub (? & ? & ? & Hown & ?). split_and!; try done.
  by eapply lookup_weaken.
Qed.

Lemma skipped_frame (h h' : gmap nat (gmap string value)) name func :
  h ⊆ h' → skipped h name func → skipped h' name func.
Proof.
  intros Hsub [?|[?|[?|(a & own & ? & Hown & ?)]]].
  - by left.
  - by right; left.
  - by right; right; left.
  - right; right; right. exists a, own. split_and!; try done.
    by eapply lookup_weaken.
Qed.

(** An entry of the index stays an entry. *)
Lemma docs_from_member_mono (h h' : gmap nat (gmap string value)) name func
    api_docs api_docs' s u m :
  docs_from_member relpath root_dir url_prefix name func api_docs h
  = Ok (api_docs', h') →
  is_Some (entry api_docs s u m) → is_Some (entry api_docs' s u m).
Proof.
  intros [[-> _]|(a & own & Hdoc & Hrun)]%docs_from_member_cases; [done|].
  destruct Hdoc as (_ & _ & _ & Hown & _).
  apply (document_inv _ _ _ _ _ _ _ _ _ _ _ _ Hown) in Hrun
    as (? & ? & ? & ? & ? & ? & ? & ? & _ & _ & _ & _ & _ & _ & _ & _ & _ & _ & ->).
  intros Hsome. rewrite entry_filed. by case_decide.
Qed.

Lemma docs_loop_mono members : ∀ (h h' : gmap nat (gmap string value))
    api_docs api_docs' s u m,
  docs_loop relpath root_dir url_prefix members api_docs h
  = Ok (api_docs', h') →
  is_Some (entry api_docs s u m) → is_Some (entry api_docs' s u m).
Proof.
  induction members as [|[name func] members IH];
    intros h h' api_docs api_docs' s u m Hrun Hsome; simpl in Hrun.
  - unfold ret in Hrun. by simplify_eq.
  - inv_bind Hrun. eapply IH; [done|]. by eapply docs_from_member_mono.
Qed.

(** A member that is documented has an entry under the section that its
    own metadata declares, whatever that section is. *)
Lemma documented_member_is_filed (h h' : gmap nat (gmap string value))
    name func a own sec api_docs api_docs' :
  documented h name func a own →
  own !! "section" = Some sec →
  docs_from_member relpath root_dir url_prefix name func api_docs h
  = Ok (api_docs', h') →
  ∃ s u, hashable sec = Some s ∧
         entry api_docs' s u (method_of name) = Some (fresh (dom h)).
Proof.
  intros Hdoc Hsec Hrun.
  rewrite (docs_from_member_documented _ _ _ _ _ _ _ _ _ Hdoc) in Hrun.
  destruct Hdoc as (_ & _ & _ & Hown & _).
  apply (document_inv _ _ _ _ _ _ _ _ _ _ _ _ Hown) in Hrun
    as (resolved & merged & sec' & s & uri & u & variants & uris
        & _ & Hres & _ & Hmerged & _ & Hsec' & Hs & _ & _ & _ & ->).
  rewrite Hmerged, (Hres _ _ Hsec) in Hsec' by done.
  injection Hsec' as <-.
  exists s, u. split; [done|]. rewrite entry_filed.
  rewrite decide_True; [done|]. split_and!; [done| |done].
  apply elem_of_cons. by left.
Qed.

Lemma docs_loop_filed members : ∀ (h h' : gmap nat (gmap string value))
    name func a own sec api_docs api_docs',
  (name, func) ∈ members →
  documented h name func a own →
  own !! "section" = Some sec →
  docs_loop relpath root_dir url_prefix members api_docs h
  = Ok (api_docs', h') →
  ∃ s u, hashable sec = Some s ∧
         is_Some (entry api_docs' s u (method_of name)).
Proof.
  induction members as [|[name0 func0] members IH];
    intros h h' name func a own sec api_docs api_docs' Hin Hdoc Hsec Hrun.
  - by apply elem_of_nil in Hin.
  - simpl in Hrun. inv_bind Hrun.
    apply elem_of_cons in Hin as [[= -> ->]|Hin].
    + destruct (documented_member_is_filed _ _ _ _ _ _ _ _ _ Hdoc Hsec E)
        as (s & u & Hs & Hentry).
      exists s, u. split; [done|].
      eapply docs_loop_mono; [done|]. by rewrite Hentry.
    + eapply IH; [done| |done|done].
      eapply documented_frame; [|done].
      by eapply docs_from_member_frame.
Qed.

(** A member that is passed over can as well be left out. *)
Lemma docs_loop_skip before : ∀ (h : gmap nat (gmap string value))
    name func after api_docs,
  skipped h name func →
  docs_loop relpath root_dir url_prefix (before ++ (name, func) :: after)
    api_docs h
  = docs_loop relpath root_dir url_prefix (before ++ after) api_docs h.
Proof.
  induction before as [|[name0 func0] before IH];
    intros h name func after api_docs Hskip; simpl.
  - by rewrite (bind_Ok _ _ _ _ _
      (docs_from_member_skipped _ _ _ _ _ _ _ Hskip)).
  - destruct (docs_from_member relpath root_dir url_prefix name0 func0
                api_docs h) as [[api_docs1 h1]|e] eqn:E.
    + rewrite !(bind_Ok _ _ _ _ _ E). apply IH.
      eapply skipped_frame; [|done]. by eapply docs_from_member_frame.
    + by rewrite !(bind_Raise _ _ _ _ E).
Qed.
End controller.

(** ** The collector: skipped members, new records, inheritance, variants *)

Section collector_properties.
Context (relpath : string → string → string) (root_dir : string).
Context (url_prefix : string).

(** C6. A member whose name has no action after the first underscore, or
    whose method is neither GET nor POST, or that carries no metadata, or
    whose metadata has no section, is passed over without an error: the
    index and the store stay as they are, and the index that the
    collector returns is the one it returns without the member. *)
Theorem skipped_member_contributes_nothing
    (h : gmap nat (gmap string value)) name func :
  skipped h name func →
  (∀ api_docs,
     docs_from_member relpath root_dir url_prefix name func api_docs h
     = Ok (api_docs, h)) ∧
  (∀ before after,
     docs_from_controller relpath root_dir
       (before ++ (name, func) :: after) url_prefix h
     = docs_from_controller relpath root_dir
         (before ++ after) url_prefix h).
Proof.
  intros Hskip. split.
  - intros api_docs. by apply docs_from_member_skipped.
  - intros before after. unfold docs_from_controller.
    by apply docs_loop_skip.
Qed.

Lemma mapM_hashable_strings (l : list string) :
  mapM hashable (VStr <$> l) = Some (KStr <$> l).
Proof.
  induction l as [|x l IH]; [done|]. rewrite !fmap_cons.
  change (mapM hashable (VStr x :: (VStr <$> l)))
    with (k ← hashable (VStr x); ks ← mapM hashable (VStr <$> l);
          mret (k :: ks)).
  by rewrite IH.
Qed.

Lemma docs_loop_new members : ∀ (h0 h h' : gmap nat (gmap string value))
    api_docs api_docs',
  h0 ⊆ h →
  (∀ s u m d, entry api_docs s u m = Some d →
              h0 !! d = None ∧ is_Some (h !! d)) →
  docs_loop relpath root_dir url_prefix members api_docs h
  = Ok (api_docs', h') →
  ∀ s u m d, entry api_docs' s u m = Some d →
             h0 !! d = None ∧ is_Some (h' !! d).
Proof.
  induction members as [|[name func] members IH];
    intros h0 h h' api_docs api_docs' Hsub Hinv Hrun; simpl in Hrun.
  - unfold ret in Hrun. by simplify_eq.
  - inv_bind Hrun.
    pose proof (docs_from_member_frame _ _ _ _ _ _ _ _ _ E) as Hsub1.
    eapply (IH h0 h1); [by etrans| |done].
    apply docs_from_member_cases in E
      as [[-> ->]|(a & own & Hdoc & Hdocument)]; [done|].
    destruct Hdoc as (_ & _ & _ & Hown & _).
    apply (document_inv _ _ _ _ _ _ _ _ _ _ _ _ Hown) in Hdocument
      as (? & merged & ? & s' & ? & u' & ? & uris
          & _ & _ & -> & _ & _ & _ & _ & _ & _ & _ & ->).
    intros s u m d. rewrite entry_filed. case_decide.
    + intros [= <-]. split.
      * eapply lookup_weaken_None; [|done].
        apply not_elem_of_dom, is_fresh.
      * rewrite lookup_insert_eq. eauto.
    + intros Hentry. destruct (Hinv _ _ _ _ Hentry) as [? [r Hr]].
      split; [done|]. exists r. by eapply lookup_weaken.
Qed.

(** C8. A collection that returns leaves every record that was in the
    store as it was, the attached metadata of every member among them;
    every record that the index refers to is a record built by the
    collection. *)
Theorem collector_leaves_metadata_alone
    (h h' : gmap nat (gmap string value)) controller api_docs :
  docs_from_controller relpath root_dir controller url_prefix h
  = Ok (api_docs, h') →
  (∀ a r, h !! a = Some r → h' !! a = Some r) ∧
  (∀ s u m d, entry api_docs s u m = Some d →
              h !! d = None ∧ is_Some (h' !! d)).
Proof.
  intros Hrun. unfold docs_from_controller in Hrun. split.
  - intros a r Ha. eapply lookup_weaken; [done|].
    by eapply docs_loop_frame.
  - eapply docs_loop_new; [done| |done].
    intros s u m d. unfold entry. by rewrite lookup_empty.
Qed.


End collector_properties.

(** ** The aggregator (lines 139-142) *)

Lemma lookup_merge_docs (api_docs part : gmap hkey (gmap hkey (gmap string nat))) s :
  merge_docs api_docs part !! s
  = match part !! s with
    | Some contents => Some (contents ∪ default ∅ (api_docs !! s))
    | None => api_docs !! s
    end.
Proof.
  unfold merge_docs. revert s.
  apply (map_fold_weak_ind
    (λ (r : gmap hkey (gmap hkey (gmap string nat))) m,
       ∀ s, r !! s = match m !! s with
                     | Some contents => Some (contents ∪ default ∅ (api_docs !! s))
                     | None => api_docs !! s
                     end)).
  - intros s. by rewrite lookup_empty.
  - intros i x m r Hi IH s.
    destruct (decide (i = s)) as [->|Hne].
    + rewrite !lookup_insert_eq. by rewrite IH, Hi.
    + rewrite !lookup_insert_ne by done. apply IH.
Qed.

(** The methods of a URI are those of the later index, if it has the URI
    at all. *)
Lemma methods_at_merge_docs (api_docs part : gmap hkey (gmap hkey (gmap string nat))) s u :
  methods_at (merge_docs api_docs part) s u
  = match methods_at part s u with
    | Some by_method => Some by_method
    | None => methods_at api_docs s u
    end.
Proof.
  unfold methods_at. rewrite lookup_merge_docs.
  destruct (part !! s) as [contents|]; simpl; [|done].
  rewrite lookup_union.
  destruct (contents !! u) as [by_method|]; simpl.
  - by destruct (default ∅ (api_docs !! s) !! u).
  - destruct (api_docs !! s) as [by_uri|]; simpl.
    + by destruct (by_uri !! u).
    + by rewrite lookup_empty.
Qed.

Lemma entry_methods_at (api_docs : gmap hkey (gmap hkey (gmap string nat))) s u m :
  entry api_docs s u m = methods_at api_docs s u ≫= (.!! m).
Proof.
  unfold entry, methods_at. by destruct (api_docs !! s).
Qed.

Lemma methods_at_empty s u : methods_at ∅ s u = None.
Proof. unfold methods_at. by rewrite lookup_empty. Qed.

(** C2, as the code has it. Two sources are merged by URI: where the later
    source has a URI of a section, its whole table of methods stands for
    that URI, and the table of the earlier source stands only where the
    later source does not have the URI. So for a section, URI and method
    that both sources have the record of the later source wins, whichever
    of the two comes later, and a method that only the earlier source has
    under a URI of the later source is not in the result. *)
Theorem merge_is_by_uri relpath root_dir (h h' : gmap nat (gmap string value))
    controller1 prefix1 controller2 prefix2 api_docs :
  GET_docs relpath root_dir [(controller1, prefix1); (controller2, prefix2)] h
  = Ok (api_docs, h') →
  ∃ part1 h1 part2,
    docs_from_controller relpath root_dir controller1 prefix1 h
    = Ok (part1, h1) ∧
    docs_from_controller relpath root_dir controller2 prefix2 h1
    = Ok (part2, h') ∧
    (∀ s u, methods_at api_docs s u
            = match methods_at part2 s u with
              | Some by_method => Some by_method
              | None => methods_at part1 s u
              end) ∧
    (∀ s u m, is_Some (methods_at part2 s u) →
              entry api_docs s u m = entry part2 s u m) ∧
    (∀ s u m, methods_at part2 s u = None →
              entry api_docs s u m = entry part1 s u m).
Proof.
  intros Hrun. unfold GET_docs in Hrun. simpl in Hrun.
  inv_bind Hrun. rename x into part1, h0 into h1.
  inv_bind Hrun. rename x into part2.
  unfold ret in Hrun. injection Hrun as <- <-.
  assert (∀ s u, methods_at (merge_docs (merge_docs ∅ part1) part2) s u
                 = match methods_at part2 s u with
                   | Some by_method => Some by_method
                   | None => methods_at part1 s u
                   end) as Hmerge.
  { intros s u. rewrite !methods_at_merge_docs, methods_at_empty.
    by destruct (methods_at part1 s u). }
  exists part1, h1, part2. split_and!; try done.
  - intros s u m [by_method Hm]. rewrite !entry_methods_at, Hmerge.
    by rewrite Hm.
  - intros s u m Hm. rewrite !entry_methods_at, Hmerge. by rewrite Hm.
Qed.

(** ** Attaching metadata (lines 56-65) *)

Lemma add_metadata_spec section (kwargs : gmap string value) f
    (funcs : nat → function) (h : gmap nat (gmap string value)) :
  let doc := default (fresh (dom h)) (_api_doc (funcs f)) in
  let funcs' := <[f := with_api_doc (funcs f) doc]> funcs in
  add_metadata section kwargs f funcs h
  = match resolve_extends funcs' kwargs with
    | Ok kwargs' =>
        Ok ((kwargs', funcs'),
            <[doc := attached section kwargs' (funcs f) (deref h doc)]> h)
    | Raise e => Raise e
    end.
Proof.
  unfold add_metadata, attached.
  destruct (_api_doc (funcs f)) as [a|] eqn:Hattr; simpl.
  - unfold bind at 1, ret at 1.
    destruct (resolve_extends _ kwargs) as [kwargs'|e]; [|done].
    unfold bind, lift, update_with, setitem, ret.
    by rewrite !deref_insert, !insert_insert_eq.
  - unfold bind at 1, new_dict at 1.
    destruct (resolve_extends _ kwargs) as [kwargs'|e]; [|done].
    unfold bind, lift, update_with, setitem, ret.
    rewrite !deref_insert, !insert_insert_eq.
    assert (deref h (fresh (dom h)) = ∅) as ->; [|done].
    unfold deref.
    by rewrite (proj1 (not_elem_of_dom h _) (is_fresh (dom h))).
Qed.

Lemma api_doc_spec section (kwargs : gmap string value) f
    (funcs : nat → function) (h : gmap nat (gmap string value)) :
  let doc := default (fresh (dom h)) (_api_doc (funcs f)) in
  let funcs' := <[f := with_api_doc (funcs f) doc]> funcs in
  api_doc section kwargs f funcs h
  = match resolve_extends funcs' kwargs with
    | Ok kwargs' =>
        Ok (funcs', <[doc := attached section kwargs' (funcs f) (deref h doc)]> h)
    | Raise e => Raise e
    end.
Proof.
  unfold api_doc, bind. rewrite add_metadata_spec. simpl.
  by destruct (resolve_extends _ kwargs).
Qed.

Lemma resolve_extends_func (funcs : nat → function) (kwargs : gmap string value) g :
  kwargs !! "extends" = Some (VFunc g) →
  resolve_extends funcs kwargs
  = match _api_doc (funcs g) with
    | Some p => Ok (<["extends" := VRef p]> kwargs)
    | None => Raise AttributeError
    end.
Proof.
  intros Hext. unfold resolve_extends, getattr_api_doc. rewrite Hext.
  by destruct (_api_doc (funcs g)).
Qed.

Lemma resolve_extends_none (funcs : nat → function) (kwargs : gmap string value) :
  kwargs !! "extends" = None → resolve_extends funcs kwargs = Ok kwargs.
Proof. intros Hext. unfold resolve_extends. by rewrite Hext. Qed.

(** C7, as the code has it. The [extends] that a function stores is a
    reference to the record of the function it names: attaching it neither
    copies nor changes that record, and an attachment made to the named
    function afterwards updates the very record that the stored reference
    leads to, while the record that holds the reference stays as it was. *)
Theorem extends_is_a_live_reference section (kwargs : gmap string value) f g
    (funcs : nat → function) (h : gmap nat (gmap string value)) p
    (parent : gmap string value) section2 (kwargs2 : gmap string value) :
  f ≠ g →
  _api_doc (funcs g) = Some p → h !! p = Some parent →
  _api_doc (funcs f) ≠ Some p →
  kwargs !! "extends" = Some (VFunc g) →
  kwargs2 !! "extends" = None →
  ∃ funcs1 h1 funcs2 h2 c child,
    api_doc section kwargs f funcs h = Ok (funcs1, h1) ∧
    api_doc section2 kwargs2 g funcs1 h1 = Ok (funcs2, h2) ∧
    _api_doc (funcs1 f) = Some c ∧ _api_doc (funcs2 f) = Some c ∧
    _api_doc (funcs1 g) = Some p ∧ _api_doc (funcs2 g) = Some p ∧
    c ≠ p ∧
    h1 !! c = Some child ∧ h2 !! c = Some child ∧
    child !! "extends" = Some (VRef p) ∧
    h1 !! p = Some parent ∧
    h2 !! p = Some (attached section2 kwargs2 (funcs g) parent).
Proof.
  intros Hfg Hg Hp Hf Hext Hext2.
  set (c := default (fresh (dom h)) (_api_doc (funcs f))).
  assert (c ≠ p) as Hcp.
  { subst c. destruct (_api_doc (funcs f)) as [a|]; simpl.
    - congruence.
    - intros Heq. apply (is_fresh (dom h)). rewrite Heq.
      apply elem_of_dom. eauto. }
  pose proof (api_doc_spec section kwargs f funcs h) as H1.
  simpl in H1. fold c in H1.
  rewrite (resolve_extends_func _ _ _ Hext) in H1.
  rewrite fn_lookup_insert_ne in H1 by done. rewrite Hg in H1.
  set (funcs1 := <[f := with_api_doc (funcs f) c]> funcs) in *.
  set (child := attached section (<["extends" := VRef p]> kwargs) (funcs f)
                  (deref h c)) in *.
  set (h1 := <[c := child]> h) in *.
  assert (_api_doc (funcs1 g) = Some p) as Hg1.
  { subst funcs1. by rewrite fn_lookup_insert_ne. }
  assert (h1 !! p = Some parent) as Hp1.
  { subst h1. by rewrite lookup_insert_ne. }
  pose proof (api_doc_spec section2 kwargs2 g funcs1 h1) as H2.
  simpl in H2. rewrite Hg1 in H2. simpl in H2.
  rewrite (resolve_extends_none _ _ Hext2) in H2.
  rewrite (deref_lookup _ _ _ Hp1) in H2.
  assert (funcs1 g = funcs g) as Hfg1.
  { subst funcs1. by rewrite fn_lookup_insert_ne. }
  rewrite Hfg1 in H2.
  eexists _, _, _, _, c, child. split; [exact H1|]. split; [exact H2|].
  split_and!; try done.
  - subst funcs1. by rewrite fn_lookup_insert.
  - rewrite fn_lookup_insert_ne by done. subst funcs1.
    by rewrite fn_lookup_insert.
  - by rewrite fn_lookup_insert.
  - subst h1. by rewrite lookup_insert_eq.
  - rewrite lookup_insert_ne by done. subst h1. by rewrite lookup_insert_eq.
  - subst child. unfold attached.
    rewrite !lookup_insert_ne by done.
    apply lookup_union_Some_l, lookup_insert_eq.
  - by rewrite lookup_insert_eq.
Qed.

(** Attaching with an [extends] that names another function raises
    exactly when that function has no metadata yet. *)
Lemma add_metadata_extends section (kwargs : gmap string value) f g
    (funcs : nat → function) (h : gmap nat (gmap string value)) :
  kwargs !! "extends" = Some (VFunc g) → g ≠ f →
  (_api_doc (funcs g) = None →
   add_metadata section kwargs f funcs h = Raise AttributeError) ∧
  (∀ p, _api_doc (funcs g) = Some p →
        ∃ funcs' h' c child,
          add_metadata section kwargs f funcs h
          = Ok ((<["extends" := VRef p]> kwargs, funcs'), h') ∧
          _api_doc (funcs' f) = Some c ∧ h' !! c = Some child ∧
          child !! "extends" = Some (VRef p)).
Proof.
  intros Hext Hgf.
  pose proof (add_metadata_spec section kwargs f funcs h) as Hspec.
  simpl in Hspec. rewrite (resolve_extends_func _ _ _ Hext) in Hspec.
  rewrite fn_lookup_insert_ne in Hspec by done.
  split.
  - intros Hg. by rewrite Hg in Hspec.
  - intros p Hg. rewrite Hg in Hspec.
    eexists _, _, _, _. split; [exact Hspec|].
    split_and!.
    + by rewrite fn_lookup_insert.
    + by rewrite lookup_insert_eq.
    + unfold attached. rewrite !lookup_insert_ne by done.
      apply lookup_union_Some_l, lookup_insert_eq.
Qed.

(** ** Metadata of the documented shapes is always collected *)

Lemma resolved_of_frame (h h' : gmap nat (gmap string value)) own func resolved :
  h ⊆ h' → resolved_of h own func = Some resolved →
  resolved_of h' own func = Some resolved.
Proof.
  intros Hsub. unfold resolved_of.
  destruct (own !! "extends") as [[]|]; try done.
  destruct (h !! a) as [parent|] eqn:Hp; [|done]. simpl.
  by rewrite (lookup_weaken _ _ _ _ Hp Hsub).
Qed.

Lemma collectable_frame (h h' : gmap nat (gmap string value)) member :
  h ⊆ h' → collectable h member → collectable h' member.
Proof.
  intros Hsub [Hskip|(a & own & resolved & Hdoc & Hres & Hshape)].
  - left. by eapply skipped_frame.
  - right. exists a, own, resolved. split_and!; [|by eapply resolved_of_frame|done].
    by eapply documented_frame.
Qed.

Lemma resolve_inheritance_resolved (h : gmap nat (gmap string value)) d a
    own func resolved :
  h !! d = None → h !! a = Some own →
  resolved_of h own func = Some resolved →
  resolve_inheritance d a func (<[d := ∅]> h) = Ok ((), <[d := resolved]> h).
Proof.
  intros Hd Ha Hres. unfold resolved_of in Hres.
  assert (d ≠ a) as Hne by congruence.
  destruct (own !! "extends") as [ext|] eqn:Hext.
  - destruct ext; try done.
    destruct (h !! a0) as [parent|] eqn:Hp; [|done]. simplify_eq/=.
    assert (d ≠ a0) as Hne' by congruence.
    erewrite (resolve_inheritance_extends _ d a ∅ own func); cycle 1.
    + apply lookup_insert_eq.
    + by rewrite lookup_insert_ne.
    + done.
    + exact Hext.
    + by rewrite lookup_insert_ne.
    + done.
    + by rewrite insert_insert_eq, insert_empty.
  - simplify_eq.
    erewrite (resolve_inheritance_plain _ d a ∅ own func); cycle 1.
    + apply lookup_insert_eq.
    + by rewrite lookup_insert_ne.
    + done.
    + done.
    + by rewrite insert_insert_eq, insert_empty.
Qed.

Lemma resolve_uri_shaped (h : gmap nat (gmap string value)) d
    (r : gmap string value) url_prefix action :
  h !! d = Some r →
  match r !! "uri" with None | Some (VStr _) => true | _ => false end = true →
  match r !! "extensions" with None | Some (VList _) => true | _ => false end = true →
  ∃ u r', resolve_uri d url_prefix action h = Ok (VStr u, <[d := r']> h) ∧
          ∀ k, k ≠ "uri" → k ≠ "extensions" → r' !! k = r !! k.
Proof.
  intros Hd Huri Hext.
  assert (∃ u, canonical_uri d url_prefix action h = Ok (VStr u, h))
    as [u Hcanon].
  { destruct (r !! "uri") as [[]|] eqn:Hu; try done.
    - eexists. by apply (canonical_uri_str _ _ _ _ _ Hd _ Hu).
    - eexists. by apply (canonical_uri_absent _ _ _ _ _ Hd Hu). }
  destruct (r !! "extensions") as [[]|] eqn:He; try done.
  - pose proof (resolve_uri_list _ _ _ _ _ _ _ Hd Hcanon He) as Hrun.
    simpl in Hrun. eexists _, _. split; [exact Hrun|].
    intros k ??. rewrite lookup_insert_ne by done.
    destruct l as [|? [|??]]; [done| |done]. by rewrite lookup_delete_ne.
  - unfold resolve_uri. rewrite (bind_Ok _ _ _ _ _ Hcanon).
    rewrite (bind_Ok _ _ _ _ _ (fold_extension_absent _ _ _ Hd _ He)).
    rewrite (bind_Ok _ _ _ _ _ (setitem_at _ _ _ Hd _ _)).
    eexists _, _. split; [done|]. intros k ??. by rewrite lookup_insert_ne.
Qed.

Lemma relativize_filepath_shaped relpath root_dir
    (h : gmap nat (gmap string value)) d (r : gmap string value) c fp :
  h !! d = Some r →
  r !! "filepath" = Some (VStr (String c fp)) →
  ∃ r', relativize_filepath relpath root_dir d h = Ok ((), <[d := r']> h) ∧
        ∀ k, k ≠ "relfilepath" → r' !! k = r !! k.
Proof.
  intros Hd Hfp. unfold relativize_filepath.
  rewrite (bind_Ok _ _ _ _ _ (getitem_at _ _ _ Hd _ _ Hfp)).
  unfold bind at 1, startswith at 1, ret at 1.
  destruct (String.prefix root_dir (String c fp)).
  - rewrite (bind_Ok _ _ _ _ _ (getitem_at _ _ _ Hd _ _ Hfp)).
    unfold bind at 1, os_relpath at 1, bind at 1, truthy at 1.
    rewrite bool_decide_eq_true_2 by done. unfold ret at 1.
    rewrite (setitem_at _ _ _ Hd).
    eexists. split; [done|]. intros k ?. by rewrite lookup_insert_ne.
  - exists r. split; [by rewrite insert_id|done].
Qed.

Lemma index_variants_shaped (h : gmap nat (gmap string value)) d
    (r : gmap string value) method u s api_docs :
  h !! d = Some r →
  r !! "section" = Some (VStr s) →
  match r !! "uri_variants" with None | Some (VList _) => true | _ => false end = true →
  ∃ l, default (VList []) (r !! "uri_variants") = VList l ∧
       index_variants d method (VStr u) api_docs h
       = Ok (filed api_docs (KStr s) method d (KStr u :: (KStr <$> l)), h).
Proof.
  intros Hd Hsec Hvar.
  assert (∃ l, default (VList []) (r !! "uri_variants") = VList l) as [l Hl].
  { destruct (r !! "uri_variants") as [[]|]; try done; simpl; eauto. }
  exists l. split; [done|]. unfold index_variants.
  rewrite (bind_Ok _ _ _ _ _ (get_at _ _ _ Hd _ _)), Hl.
  unfold bind at 1, iter at 1.
  apply (file_under_filed _ _ _ _ _ _ _ _ _ Hd Hsec); [done|].
  change (mapM hashable (VStr u :: (VStr <$> l)))
    with (k ← hashable (VStr u); ks ← mapM hashable (VStr <$> l);
          mret (k :: ks)).
  by rewrite mapM_hashable_strings.
Qed.

Section totality.
Context (relpath : string → string → string) (root_dir : string).
Context (url_prefix : string).

Lemma document_shaped (h : gmap nat (gmap string value)) a own func resolved
    method action api_docs :
  h !! a = Some own →
  resolved_of h own func = Some resolved →
  well_shaped resolved = true →
  ∃ api_docs' merged,
    document relpath root_dir a func url_prefix method action api_docs h
    = Ok (api_docs', <[fresh (dom h) := merged]> h).
Proof.
  intros Hown Hres Hshape.
  unfold well_shaped in Hshape.
  apply andb_prop in Hshape as [Hshape Hfp].
  apply andb_prop in Hshape as [Hshape Hsec].
  apply andb_prop in Hshape as [Hshape Hvar].
  apply andb_prop in Hshape as [Huri Hext].
  set (d := fresh (dom h)).
  assert (h !! d = None) as Hd by apply not_elem_of_dom, is_fresh.
  unfold document. unfold bind at 1, new_dict at 1. fold d.
  rewrite (bind_Ok _ _ _ _ _
    (resolve_inheritance_resolved _ _ _ _ _ _ Hd Hown Hres)).
  destruct (resolve_uri_shaped (<[d := resolved]> h) d resolved url_prefix
              action (lookup_insert_eq _ _ _) Huri Hext)
    as (u & r1 & Hrun1 & Hr1).
  rewrite (bind_Ok _ _ _ _ _ Hrun1), insert_insert_eq.
  destruct (resolved !! "filepath") as [[| [|c fp] | | | | |]|] eqn:Hfp';
    try done.
  destruct (relativize_filepath_shaped relpath root_dir (<[d := r1]> h) d r1
              c fp (lookup_insert_eq _ _ _)) as (r2 & Hrun2 & Hr2).
  { by rewrite Hr1. }
  rewrite (bind_Ok _ _ _ _ _ Hrun2), insert_insert_eq.
  destruct (resolved !! "section") as [[| s | | | | |]|] eqn:Hsec';
    try done.
  destruct (index_variants_shaped (<[d := r2]> h) d r2 method u s api_docs
              (lookup_insert_eq _ _ _)) as (l & _ & Hrun3).
  { by rewrite Hr2, Hr1. }
  { by rewrite Hr2, Hr1. }
  rewrite Hrun3. by eexists _, _.
Qed.

Lemma docs_from_member_collectable (h : gmap nat (gmap string value))
    name func api_docs :
  collectable h (name, func) →
  ∃ api_docs' h',
    docs_from_member relpath root_dir url_prefix name func api_docs h
    = Ok (api_docs', h').
Proof.
  intros [Hskip|(a & own & resolved & Hdoc & Hres & Hshape)]; simpl in *.
  - rewrite (docs_from_member_skipped _ _ _ _ _ _ _ Hskip). by eexists _, _.
  - rewrite (docs_from_member_documented _ _ _ _ _ _ _ _ _ Hdoc).
    assert (Hown : h !! a = Some own) by apply Hdoc.
    destruct (document_shaped h a own func resolved (method_of name)
                (action_of name) api_docs Hown Hres Hshape)
      as (api_docs' & merged & Hrun).
    rewrite Hrun. by eexists _, _.
Qed.

(** Metadata of the documented shapes is collected without an error. *)
Lemma docs_loop_collectable members : ∀ (h : gmap nat (gmap string value))
    api_docs,
  Forall (collectable h) members →
  ∃ api_docs' h',
    docs_loop relpath root_dir url_prefix members api_docs h
    = Ok (api_docs', h').
Proof.
  induction members as [|[name func] members IH];
    intros h api_docs Hall; simpl.
  - by eexists _, _.
  - apply Forall_cons_1 in Hall as [Hhead Htail].
    destruct (docs_from_member_collectable h name func api_docs Hhead)
      as (api_docs1 & h1 & Hrun).
    rewrite (bind_Ok _ _ _ _ _ Hrun). apply IH.
    eapply Forall_impl; [|exact Htail]. intros member.
    apply collectable_frame. by eapply docs_from_member_frame.
Qed.

(** C1, as the code has it. The collector does not look at the section
    registry: when the metadata of the members has the documented
    shapes the collection returns, and a documented member whose
    section is not in [section_info] has an entry in the index under
    that section. *)
Theorem unknown_section_is_filed (h : gmap nat (gmap string value))
    controller name func a own sname :
  Forall (collectable h) controller →
  (name, func) ∈ controller →
  documented h name func a own →
  own !! "section" = Some (VStr sname) →
  section_info !! sname = None →
  ∃ api_docs h' u,
    docs_from_controller relpath root_dir controller url_prefix h
    = Ok (api_docs, h') ∧
    is_Some (entry api_docs (KStr sname) u (method_of name)).
Proof.
  intros Hall Hin Hdoc Hsec _. unfold docs_from_controller.
  destruct (docs_loop_collectable controller h ∅ Hall)
    as (api_docs & h' & Hrun).
  destruct (docs_loop_filed _ _ _ _ _ _ _ _ _ _ _ _ _ Hin Hdoc Hsec Hrun)
    as (s & u & Hs & Hentry).
  injection Hs as <-. by exists api_docs, h', u.
Qed.

(** C9, as the code has it. An [extends] that names a function without
    metadata makes the attachment raise [AttributeError]; one that names
    a function with metadata is stored as a reference to that record.
    The collector then takes the fields of the record as they are,
    whether or not it has a section: the member is documented without
    an error whenever the record after the inheritance step has the
    documented shapes. *)
Theorem extends_needs_attached_metadata :
  (∀ section (kwargs : gmap string value) f g (funcs : nat → function)
     (h : gmap nat (gmap string value)),
     kwargs !! "extends" = Some (VFunc g) → g ≠ f →
     (_api_doc (funcs g) = None →
      add_metadata section kwargs f funcs h = Raise AttributeError) ∧
     (∀ p, _api_doc (funcs g) = Some p →
           ∃ funcs' h' c child,
             add_metadata section kwargs f funcs h
             = Ok ((<["extends" := VRef p]> kwargs, funcs'), h') ∧
             _api_doc (funcs' f) = Some c ∧ h' !! c = Some child ∧
             child !! "extends" = Some (VRef p))) ∧
  (∀ (h : gmap nat (gmap string value)) name func a own p parent api_docs,
     documented h name func a own →
     own !! "extends" = Some (VRef p) →
     h !! p = Some parent →
     well_shaped
       (own ∪ <["parameters" := VDict ∅]> (parent ∪ {["doc" := doc_of func]}))
     = true →
     ∃ api_docs' merged,
       docs_from_member relpath root_dir url_prefix name func api_docs h
       = Ok (api_docs', <[fresh (dom h) := merged]> h) ∧
       ∀ k v, k ≠ "uri" → k ≠ "extensions" → k ≠ "relfilepath" →
              k ≠ "parameters" → own !! k = None → parent !! k = Some v →
              merged !! k = Some v).
Proof.
  split.
  - intros section kwargs f g funcs h. apply add_metadata_extends.
  - intros h name func a own p parent api_docs Hdoc Hext Hp Hshape.
    assert (Hown : h !! a = Some own) by apply Hdoc.
    assert (Hres : resolved_of h own func
                   = Some (own ∪ <["parameters" := VDict ∅]>
                                   (parent ∪ {["doc" := doc_of func]}))).
    { unfold resolved_of. by rewrite Hext, Hp. }
    rewrite (docs_from_member_documented _ _ _ _ _ _ _ _ _ Hdoc).
    destruct (document_shaped h a own func _ (method_of name)
                (action_of name) api_docs Hown Hres Hshape)
      as (api_docs' & merged & Hrun).
    exists api_docs', merged. split; [done|].
    intros k v ???? Hk Hpar.
    apply (document_inv _ _ _ _ _ _ _ _ _ _ _ _ Hown) in Hrun
      as (resolved' & merged' & _ & _ & _ & _ & _ & _
          & Hstage & _ & Heq & Hmerged & _).
    assert (merged' = merged) as ->.
    { apply (f_equal (.!! fresh (dom h))) in Heq.
      rewrite !lookup_insert_eq in Heq. by injection Heq. }
    rewrite (resolve_inheritance_resolved _ _ _ _ _ _
               (proj1 (not_elem_of_dom h _) (is_fresh (dom h))) Hown Hres)
      in Hstage.
    injection Hstage as Heq'.
    apply (f_equal (.!! fresh (dom h))) in Heq'.
    rewrite !lookup_insert_eq in Heq'. injection Heq' as <-.
    rewrite Hmerged by done.
    rewrite lookup_union_r by done. rewrite lookup_insert_ne by done.
    by apply lookup_union_Some_l.
Qed.
End totality.

(** * The properties on the sample metadata *)

(** Goals about the sample metadata are decided by evaluation. *)
Ltac evaluate :=
  first
    [ apply (bool_decide_unpack _); vm_compute; exact I
    | vm_compute; reflexivity
    | vm_compute; discriminate ].

Ltac evaluate_documented :=
  unfold documented; split_and!; evaluate.

(** [returns r x h E] names what the run [r] returned; that it did return
    is found by evaluation. *)
Ltac returns r x h E :=
  let e := fresh "e" in
  let H := fresh "H" in
  destruct r as [[x h]|e] eqn:E;
  [| exfalso; assert (H : is_ok r = true) by (vm_compute; reflexivity);
     rewrite E in H; discriminate H ].

(** C1: the section ["bogus"] that the second sample record declares is
    not in the registry, and the collection of the sample controller
    returns an index that has the member under that section. *)
Lemma unknown_section_collected :
  section_info !! "bogus" = None ∧
  sample_store !! 1 ≫= (.!! "section") = Some (VStr "bogus") ∧
  returned (docs_from_controller sample_relpath "/srv/r2" sample_controller
              "/api" sample_store)
  ≫= (λ api_docs, entry api_docs (KStr "bogus") (KStr "/api/child.json") "POST")
  = Some 7.
Proof. split_and!; evaluate. Qed.

Lemma sample_controller_collectable :
  Forall (collectable sample_store) sample_controller.
Proof.
  unfold sample_controller. repeat apply Forall_cons_2; [..|apply Forall_nil_2].
  - right. exists 0, info_doc, (info_doc ∪ {["doc" := VStr "Do it."]}).
    split_and!; [evaluate_documented|evaluate..].
  - right. exists 1, child_doc,
      (child_doc ∪ <["parameters" := VDict ∅]>
                     (info_doc ∪ {["doc" := VStr "Do it."]})).
    split_and!; [evaluate_documented|evaluate..].
  - left. right; right; right. exists 2, nosection_doc.
    split_and!; evaluate.
  - right. exists 3, orphan_doc,
      (orphan_doc ∪ <["parameters" := VDict ∅]>
                      (nosection_doc ∪ {["doc" := VStr "Do it."]})).
    split_and!; [evaluate_documented|evaluate..].
  - right. exists 4, empty_uri_doc,
      (empty_uri_doc ∪ {["doc" := VStr "Do it."]}).
    split_and!; [evaluate_documented|evaluate..].
  - left. left. evaluate.
  - left. right; left. evaluate.
Defined.

Lemma unknown_section_is_filed_witness :
  ∃ api_docs h' u,
    docs_from_controller sample_relpath "/srv/r2" sample_controller "/api"
      sample_store = Ok (api_docs, h') ∧
    is_Some (entry api_docs (KStr "bogus") u (method_of "POST_child")).
Proof.
  apply (unknown_section_is_filed sample_relpath "/srv/r2" "/api" sample_store
           sample_controller "POST_child" (sample_function (Some 1)) 1
           child_doc "bogus").
  - apply sample_controller_collectable.
  - evaluate.
  - evaluate_documented.
  - evaluate.
  - evaluate.
Defined.

(** C2: the first source has a GET entry for [/api/foo]; the second, run
    after it, has a POST entry and no GET entry for it; and the merged
    index has the POST entry and no GET entry for it. *)
Lemma merge_drops_other_methods :
  let account := KStr "account" in
  let foo := KStr "/api/foo" in
  let first := docs_from_controller sample_relpath "/srv/r2" get_source "/api" in
  let second := docs_from_controller sample_relpath "/srv/r2" post_source "/api" in
  let merged :=
    GET_docs sample_relpath "/srv/r2"
      [(get_source, "/api"); (post_source, "/api")] in
  returned (first sample_store) ≫= (λ part, entry part account foo "GET")
  = Some 6 ∧
  returned ((first;; second) sample_store)
  ≫= (λ part, entry part account foo "POST") = Some 7 ∧
  returned ((first;; second) sample_store)
  ≫= (λ part, entry part account foo "GET") = None ∧
  returned (merged sample_store)
  ≫= (λ api_docs, entry api_docs account foo "POST") = Some 7 ∧
  returned (merged sample_store)
  ≫= (λ api_docs, entry api_docs account foo "GET") = None.
Proof. split_and!; evaluate. Qed.

Lemma merge_is_by_uri_witness :
  ∃ api_docs h' part1 h1 part2,
    GET_docs sample_relpath "/srv/r2"
      [(get_source, "/api"); (post_source, "/api")] sample_store
    = Ok (api_docs, h') ∧
    docs_from_controller sample_relpath "/srv/r2" get_source "/api"
      sample_store = Ok (part1, h1) ∧
    docs_from_controller sample_relpath "/srv/r2" post_source "/api" h1
    = Ok (part2, h') ∧
    ∀ s u, methods_at api_docs s u
           = match methods_at part2 s u with
             | Some by_method => Some by_method
             | None => methods_at part1 s u
             end.
Proof.
  returns (GET_docs sample_relpath "/srv/r2"
             [(get_source, "/api"); (post_source, "/api")] sample_store)
    api_docs h' Hrun.
  destruct (merge_is_by_uri _ _ _ _ _ _ _ _ _ Hrun)
    as (part1 & h1 & part2 & H1 & H2 & H3 & _).
  exists api_docs, h', part1, h1, part2. split_and!; [reflexivity|done..].
Defined.


(** C6 on the sample member whose method is PUT. *)
Lemma skipped_member_contributes_nothing_witness :
  (∀ api_docs,
     docs_from_member sample_relpath "/srv/r2" "/api" "PUT_info"
       (sample_function (Some 0)) api_docs sample_store
     = Ok (api_docs, sample_store)) ∧
  (∀ before after,
     docs_from_controller sample_relpath "/srv/r2"
       (before ++ ("PUT_info", sample_function (Some 0)) :: after) "/api"
       sample_store
     = docs_from_controller sample_relpath "/srv/r2"
         (before ++ after) "/api" sample_store).
Proof.
  apply (skipped_member_contributes_nothing sample_relpath "/srv/r2" "/api"
           sample_store "PUT_info" (sample_function (Some 0))).
  right; left. evaluate.
Defined.

(** C7: after the function [1] has extended the function [0], the record
    that its [extends] leads to has the URI [/api/info]; after a further
    attachment to the function [0] that record has the URI
    [/api/changed]. *)
Lemma extends_follows_later_attachment :
  extends_uri (attach_twice ∅) = Some (VStr "/api/info") ∧
  extends_uri (attach_again ∅) = Some (VStr "/api/changed").
Proof. split; evaluate. Qed.

Lemma extends_record_ref (h : gmap nat (gmap string value))
    (funcs : nat → function) f c (child : gmap string value) p :
  _api_doc (funcs f) = Some c → h !! c = Some child →
  child !! "extends" = Some (VRef p) →
  extends_record h funcs f = h !! p.
Proof.
  intros Hc Hchild Hext. unfold extends_record.
  rewrite Hc. simpl. rewrite Hchild. simpl. by rewrite Hext.
Qed.

Lemma extends_is_a_live_reference_witness :
  ∃ funcs1 h1 funcs2 h2,
    api_doc (VStr "misc") {[ "extends" := VFunc 0 ]} 7 sample_functions
      sample_store = Ok (funcs1, h1) ∧
    api_doc (VStr "account") {[ "uri" := VStr "/api/changed" ]} 0 funcs1 h1
    = Ok (funcs2, h2) ∧
    extends_record h1 funcs1 7 = Some info_doc ∧
    extends_record h2 funcs2 7
    = Some (attached (VStr "account") {[ "uri" := VStr "/api/changed" ]}
              (sample_functions 0) info_doc).
Proof.
  destruct (extends_is_a_live_reference (VStr "misc")
              {[ "extends" := VFunc 0 ]} 7 0 sample_functions sample_store 0
              info_doc (VStr "account") {[ "uri" := VStr "/api/changed" ]})
    as (funcs1 & h1 & funcs2 & h2 & c & child & H1 & H2 & Hc1 & Hc2 & _ & _
        & _ & Hchild1 & Hchild2 & Hext & Hp1 & Hp2).
  - evaluate.
  - evaluate.
  - evaluate.
  - evaluate.
  - evaluate.
  - evaluate.
  - exists funcs1, h1, funcs2, h2.
    split; [exact H1|]. split; [exact H2|]. split.
    + rewrite (extends_record_ref _ _ _ _ _ _ Hc1 Hchild1 Hext). exact Hp1.
    + rewrite (extends_record_ref _ _ _ _ _ _ Hc2 Hchild2 Hext). exact Hp2.
Defined.

(** C8 on the sample controller. *)
Lemma collector_leaves_metadata_alone_witness :
  ∃ api_docs h',
    docs_from_controller sample_relpath "/srv/r2" sample_controller "/api"
      sample_store = Ok (api_docs, h') ∧
    (∀ a r, sample_store !! a = Some r → h' !! a = Some r) ∧
    (∀ s u m d, entry api_docs s u m = Some d →
                sample_store !! d = None ∧ is_Some (h' !! d)).
Proof.
  returns (docs_from_controller sample_relpath "/srv/r2" sample_controller
             "/api" sample_store) api_docs h' Hrun.
  exists api_docs, h'. split; [reflexivity|].
  exact (collector_leaves_metadata_alone sample_relpath "/srv/r2" "/api"
           sample_store h' sample_controller api_docs Hrun).
Defined.

(** C9: extending a function that has no metadata raises. *)
Lemma extends_without_metadata_raises :
  _api_doc (bare_functions 1) = None ∧
  add_metadata (VStr "account") {[ "extends" := VFunc 1 ]} 0 bare_functions ∅
  = Raise AttributeError.
Proof. split; evaluate. Qed.

Lemma extends_needs_attached_metadata_witness :
  add_metadata (VStr "account") {[ "extends" := VFunc 1 ]} 0 bare_functions
    sample_store = Raise AttributeError ∧
  (∃ funcs' h' c child,
     add_metadata (VStr "account") {[ "extends" := VFunc 0 ]} 7
       sample_functions sample_store
     = Ok ((<["extends" := VRef 0]> {[ "extends" := VFunc 0 ]}, funcs'), h') ∧
     _api_doc (funcs' 7) = Some c ∧ h' !! c = Some child ∧
     child !! "extends" = Some (VRef 0)) ∧
  ∃ api_docs' merged,
    docs_from_member sample_relpath "/srv/r2" "/api" "GET_orphan"
      (sample_function (Some 3)) ∅ sample_store
    = Ok (api_docs', <[fresh (dom sample_store) := merged]> sample_store) ∧
    merged !! "uri_variants" = Some (VList ["/api/legacy"]).
Proof.
  destruct (extends_needs_attached_metadata sample_relpath "/srv/r2" "/api")
    as [Hattach Hcollect].
  split_and!.
  - apply (Hattach (VStr "account") {[ "extends" := VFunc 1 ]} 0 1
             bare_functions sample_store); evaluate.
  - apply (Hattach (VStr "account") {[ "extends" := VFunc 0 ]} 7 0
             sample_functions sample_store); evaluate.
  - destruct (Hcollect sample_store "GET_orphan" (sample_function (Some 3)) 3
                orphan_doc 2 nosection_doc ∅)
      as (api_docs' & merged & Hrun & Hinherit).
    + evaluate_documented.
    + evaluate.
    + evaluate.
    + evaluate.
    + exists api_docs', merged. split; [exact Hrun|].
      apply Hinherit; evaluate.
Defined.

(** * More on attaching metadata (lines 50-65) *)

Lemma add_metadata_inv section (kwargs : gmap string value) f
    (funcs : nat → function) (h : gmap nat (gmap string value))
    kwargs' funcs' h' :
  add_metadata section kwargs f funcs h = Ok ((kwargs', funcs'), h') →
  let c := default (fresh (dom h)) (_api_doc (funcs f)) in
  funcs' = <[f := with_api_doc (funcs f) c]> funcs ∧
  resolve_extends funcs' kwargs = Ok kwargs' ∧
  h' = <[c := attached section kwargs' (funcs f) (deref h c)]> h.
Proof.
  rewrite add_metadata_spec. simpl.
  destruct (resolve_extends _ kwargs) as [kw|e] eqn:Hres; [|done].
  intros [= <- <- <-]. by rewrite Hres.
Qed.

Lemma attached_section section (kwargs : gmap string value) fn
    (old : gmap string value) :
  attached section kwargs fn old !! "section" = Some section.
Proof.
  unfold attached. rewrite !lookup_insert_ne by done.
  apply lookup_insert_eq.
Qed.

Lemma attached_filepath section (kwargs : gmap string value) fn
    (old : gmap string value) :
  attached section kwargs fn old !! "filepath" = Some (VStr (co_filename fn)).
Proof.
  unfold attached. rewrite lookup_insert_ne by done. apply lookup_insert_eq.
Qed.

Lemma attached_lineno section (kwargs : gmap string value) fn
    (old : gmap string value) :
  attached section kwargs fn old !! "lineno" = Some (VInt (co_firstlineno fn)).
Proof. unfold attached. apply lookup_insert_eq. Qed.

Lemma attached_other section (kwargs : gmap string value) fn
    (old : gmap string value) k :
  k ≠ "section" → k ≠ "filepath" → k ≠ "lineno" →
  attached section kwargs fn old !! k = (kwargs ∪ old) !! k.
Proof. intros. unfold attached. by rewrite !lookup_insert_ne. Qed.

(** X1. Two attachments to one function, as stacked decorators make them,
    work on one record: the second leaves the function with the record of
    the first, gives it the later section, writes its keyword fields over
    the earlier ones and leaves the fields that only the first attachment
    gave. No other record of the store changes. *)
Theorem successive_attachments_compose section1 (kwargs1 : gmap string value)
    section2 (kwargs2 : gmap string value) f (funcs : nat → function)
    (h : gmap nat (gmap string value)) :
  kwargs1 !! "extends" = None → kwargs2 !! "extends" = None →
  ∃ funcs1 h1 funcs2 h2 c r1 r2,
    api_doc section1 kwargs1 f funcs h = Ok (funcs1, h1) ∧
    api_doc section2 kwargs2 f funcs1 h1 = Ok (funcs2, h2) ∧
    _api_doc (funcs1 f) = Some c ∧ _api_doc (funcs2 f) = Some c ∧
    h1 !! c = Some r1 ∧ h2 !! c = Some r2 ∧
    r1 !! "section" = Some section1 ∧ r2 !! "section" = Some section2 ∧
    (∀ k v, kwargs2 !! k = Some v →
            k ≠ "section" → k ≠ "filepath" → k ≠ "lineno" →
            r2 !! k = Some v) ∧
    (∀ k, kwargs2 !! k = None → r2 !! k = r1 !! k ∨ k = "section") ∧
    (∀ a, a ≠ c → h2 !! a = h !! a).
Proof.
  intros Hext1 Hext2.
  set (c := default (fresh (dom h)) (_api_doc (funcs f))).
  pose proof (api_doc_spec section1 kwargs1 f funcs h) as H1.
  simpl in H1. fold c in H1.
  rewrite (resolve_extends_none _ _ Hext1) in H1.
  set (funcs1 := <[f := with_api_doc (funcs f) c]> funcs) in *.
  set (r1 := attached section1 kwargs1 (funcs f) (deref h c)) in *.
  set (h1 := <[c := r1]> h) in *.
  assert (_api_doc (funcs1 f) = Some c) as Hc1.
  { subst funcs1. by rewrite fn_lookup_insert. }
  pose proof (api_doc_spec section2 kwargs2 f funcs1 h1) as H2.
  simpl in H2. rewrite Hc1 in H2. simpl in H2.
  rewrite (resolve_extends_none _ _ Hext2) in H2.
  assert (h1 !! c = Some r1) as Hr1 by apply lookup_insert_eq.
  rewrite (deref_lookup _ _ _ Hr1) in H2.
  eexists _, _, _, _, c, r1, _.
  split; [exact H1|]. split; [exact H2|]. split_and!.
  - exact Hc1.
  - by rewrite fn_lookup_insert.
  - exact Hr1.
  - apply lookup_insert_eq.
  - apply attached_section.
  - apply attached_section.
  - intros k v Hk ???. rewrite attached_other by done.
    by apply lookup_union_Some_l.
  - intros k Hk.
    destruct (decide (k = "section")) as [->|?]; [by right|left].
    destruct (decide (k = "filepath")) as [->|?].
    { subst r1. rewrite !attached_filepath. subst funcs1.
      by rewrite fn_lookup_insert. }
    destruct (decide (k = "lineno")) as [->|?].
    { subst r1. rewrite !attached_lineno. subst funcs1.
      by rewrite fn_lookup_insert. }
    rewrite attached_other by done. by rewrite lookup_union_r.
  - intros a Ha. subst h1. by rewrite !lookup_insert_ne.
Qed.

(** X2. Whatever the keyword arguments are, the record of a function after
    an attachment has the section that was given and the file name and
    line of the function's code: these three are written last. Every
    other keyword field is in the record as it was passed, [extends] as
    the reference it was resolved to. *)
Theorem attachment_sets_section_and_location section
    (kwargs : gmap string value) f (funcs : nat → function)
    (h : gmap nat (gmap string value)) kwargs' funcs' h' :
  add_metadata section kwargs f funcs h = Ok ((kwargs', funcs'), h') →
  ∃ c r,
    _api_doc (funcs' f) = Some c ∧ h' !! c = Some r ∧
    r !! "section" = Some section ∧
    r !! "filepath" = Some (VStr (co_filename (funcs f))) ∧
    r !! "lineno" = Some (VInt (co_firstlineno (funcs f))) ∧
    (∀ k v, kwargs' !! k = Some v →
            k ≠ "section" → k ≠ "filepath" → k ≠ "lineno" →
            r !! k = Some v) ∧
    (∀ k, k ≠ "extends" → kwargs' !! k = kwargs !! k).
Proof.
  intros (-> & Hres & ->)%add_metadata_inv.
  eexists _, _. split_and!.
  - by rewrite fn_lookup_insert.
  - apply lookup_insert_eq.
  - apply attached_section.
  - apply attached_filepath.
  - apply attached_lineno.
  - intros k v Hk ???. rewrite attached_other by done.
    by apply lookup_union_Some_l.
  - intros k Hk. unfold resolve_extends in Hres.
    destruct (kwargs !! "extends") as [target|]; [|by simplify_eq].
    destruct (getattr_api_doc _ target); simplify_eq.
    by rewrite lookup_insert_ne.
Qed.

(** X3. An attachment changes the record of the decorated function and
    nothing else: a function without metadata gets a record that was not
    in the store, a function with metadata keeps its record; every other
    record and every other function object stay as they were, and the
    docstring and code location of the function are untouched. *)
Theorem attachment_touches_one_record section (kwargs : gmap string value) f
    (funcs : nat → function) (h : gmap nat (gmap string value))
    kwargs' funcs' h' :
  add_metadata section kwargs f funcs h = Ok ((kwargs', funcs'), h') →
  ∃ c,
    _api_doc (funcs' f) = Some c ∧
    match _api_doc (funcs f) with
    | Some a => c = a
    | None => h !! c = None
    end ∧
    (∀ a, a ≠ c → h' !! a = h !! a) ∧
    (∀ g, g ≠ f → funcs' g = funcs g) ∧
    getdoc (funcs' f) = getdoc (funcs f) ∧
    co_filename (funcs' f) = co_filename (funcs f) ∧
    co_firstlineno (funcs' f) = co_firstlineno (funcs f).
Proof.
  intros (-> & Hres & ->)%add_metadata_inv.
  eexists. split_and!.
  - by rewrite fn_lookup_insert.
  - destruct (_api_doc (funcs f)); simpl; [done|].
    apply not_elem_of_dom, is_fresh.
  - intros a Ha. by rewrite lookup_insert_ne.
  - intros g Hg. by rewrite fn_lookup_insert_ne.
  - by rewrite fn_lookup_insert.
  - by rewrite fn_lookup_insert.
  - by rewrite fn_lookup_insert.
Qed.

(** X4. A decorator made with [extends] can be applied once: the first
    application replaces the function in its keyword table by that
    function's record, and a record has no [_api_doc], so every further
    application of the same decorator raises [AttributeError]. *)
Theorem decorator_with_extends_is_single_use section
    (kwargs : gmap string value) f (funcs : nat → function)
    (h : gmap nat (gmap string value)) kwargs' funcs' h' :
  is_Some (kwargs !! "extends") →
  add_metadata section kwargs f funcs h = Ok ((kwargs', funcs'), h') →
  ∀ f2 funcs2 h2,
    add_metadata section kwargs' f2 funcs2 h2 = Raise AttributeError.
Proof.
  intros [target Hext] (-> & Hres & ->)%add_metadata_inv f2 funcs2 h2.
  unfold resolve_extends in Hres. rewrite Hext in Hres.
  unfold getattr_api_doc in Hres.
  destruct target; try done.
  destruct (_api_doc _) as [p|]; [|done]. injection Hres as <-.
  rewrite add_metadata_spec. simpl.
  unfold resolve_extends. by rewrite lookup_insert_eq.
Qed.

(** * More on the collector *)

Lemma well_shaped_fields (r : gmap string value) :
  well_shaped r = true →
  shaped_uri r = true ∧ shaped_extensions r = true ∧
  (r !! "uri_variants" = None ∨ ∃ l, r !! "uri_variants" = Some (VList l)) ∧
  (∃ s, r !! "section" = Some (VStr s)) ∧
  (∃ c fp, r !! "filepath" = Some (VStr (String c fp))).
Proof.
  unfold well_shaped, shaped_uri, shaped_extensions. intros Hshape.
  apply andb_prop in Hshape as [Hshape Hfp].
  apply andb_prop in Hshape as [Hshape Hsec].
  apply andb_prop in Hshape as [Hshape Hvar].
  apply andb_prop in Hshape as [Huri Hext].
  split_and!; try done.
  - destruct (r !! "uri_variants") as [[]|]; try done; eauto.
  - destruct (r !! "section") as [[]|]; try done; eauto.
  - destruct (r !! "filepath") as [[|[]| | | | |]|]; try done; eauto.
Qed.

Lemma canonical_uri_exact (h : gmap nat (gmap string value)) d
    (r : gmap string value) url_prefix action :
  h !! d = Some r → shaped_uri r = true →
  canonical_uri d url_prefix action h
  = Ok (VStr (canonical_of r url_prefix action), h).
Proof.
  intros Hd Hshape. unfold shaped_uri, canonical_of in *.
  destruct (r !! "uri") as [[|u| | | | |]|] eqn:Hu; try done.
  - rewrite (canonical_uri_str _ _ _ _ _ Hd _ Hu).
    destruct u; [by rewrite bool_decide_eq_false_2 by (by intros ?)|].
    by rewrite bool_decide_eq_true_2.
  - apply (canonical_uri_absent _ _ _ _ _ Hd Hu).
Qed.

Lemma resolve_uri_exact (h : gmap nat (gmap string value)) d
    (r : gmap string value) url_prefix action :
  h !! d = Some r → shaped_uri r = true → shaped_extensions r = true →
  let uri := VStr (folded_uri r (canonical_of r url_prefix action)) in
  resolve_uri d url_prefix action h
  = Ok (uri, <[d := <["uri" := uri]> (folded_record r)]> h).
Proof.
  intros Hd Huri Hext.
  pose proof (canonical_uri_exact _ _ _ url_prefix action Hd Huri) as Hcanon.
  unfold shaped_extensions, folded_uri, folded_record in *.
  destruct (r !! "extensions") as [[| | |l| | |]|] eqn:He; try done.
  - pose proof (resolve_uri_list _ _ _ _ _ _ _ Hd Hcanon He) as Hrun.
    simpl in Hrun. rewrite Hrun. by destruct l as [|? [|??]].
  - simpl. unfold resolve_uri. rewrite (bind_Ok _ _ _ _ _ Hcanon).
    rewrite (bind_Ok _ _ _ _ _ (fold_extension_absent _ _ _ Hd _ He)).
    by rewrite (bind_Ok _ _ _ _ _ (setitem_at _ _ _ Hd _ _)).
Qed.

Lemma relativize_filepath_exact relpath root_dir
    (h : gmap nat (gmap string value)) d (r : gmap string value) c fp :
  h !! d = Some r →
  r !! "filepath" = Some (VStr (String c fp)) →
  relativize_filepath relpath root_dir d h
  = Ok ((), <[d := relativized relpath root_dir r]> h).
Proof.
  intros Hd Hfp. unfold relativize_filepath, relativized. rewrite Hfp.
  rewrite (bind_Ok _ _ _ _ _ (getitem_at _ _ _ Hd _ _ Hfp)).
  unfold bind at 1, startswith at 1, ret at 1.
  destruct (String.prefix root_dir (String c fp)).
  - rewrite (bind_Ok _ _ _ _ _ (getitem_at _ _ _ Hd _ _ Hfp)).
    unfold bind at 1, os_relpath at 1, bind at 1, truthy at 1.
    rewrite bool_decide_eq_true_2 by done. unfold ret at 1.
    by rewrite (setitem_at _ _ _ Hd).
  - unfold ret. by rewrite insert_id.
Qed.

Lemma relativize_filepath_missing relpath root_dir
    (h : gmap nat (gmap string value)) d (r : gmap string value) :
  h !! d = Some r → r !! "filepath" = None →
  relativize_filepath relpath root_dir d h = Raise KeyError.
Proof.
  intros Hd Hfp. unfold relativize_filepath.
  by rewrite (bind_Raise _ _ _ _ (getitem_missing _ _ _ Hd _ Hfp)).
Qed.

Lemma merged_record_other relpath root_dir (resolved : gmap string value)
    url_prefix action k :
  k ≠ "uri" → k ≠ "extensions" → k ≠ "relfilepath" →
  merged_record relpath root_dir resolved url_prefix action !! k
  = resolved !! k.
Proof.
  intros ???. unfold merged_record, relativized.
  assert (∀ u, (<["uri" := u]> (folded_record resolved)) !! k = resolved !! k)
    as Hk.
  { intros u. rewrite lookup_insert_ne by done. unfold folded_record.
    destruct (resolved !! "extensions") as [[| | |[|?[|??]]| | |]|]; try done.
    by rewrite lookup_delete_ne. }
  destruct (_ !! "filepath") as [[|fp| | | | |]|]; try apply Hk.
  destruct (String.prefix root_dir fp); [|apply Hk].
  rewrite lookup_insert_ne by done. apply Hk.
Qed.

Section collector_more.
Context (relpath : string → string → string) (root_dir : string).
Context (url_prefix : string).

(** The run of a documented member up to line 109. *)
Lemma document_to_uri (h : gmap nat (gmap string value)) a own func resolved
    method action api_docs :
  h !! a = Some own →
  resolved_of h own func = Some resolved →
  shaped_uri resolved = true → shaped_extensions resolved = true →
  let d := fresh (dom h) in
  let uri := VStr (folded_uri resolved (canonical_of resolved url_prefix action)) in
  document relpath root_dir a func url_prefix method action api_docs h
  = (relativize_filepath relpath root_dir d;;
     index_variants d method uri api_docs)
      (<[d := <["uri" := uri]> (folded_record resolved)]> h).
Proof.
  intros Hown Hres Huri Hext d uri.
  assert (h !! d = None) as Hd by apply not_elem_of_dom, is_fresh.
  unfold document. unfold bind at 1, new_dict at 1. fold d.
  rewrite (bind_Ok _ _ _ _ _
    (resolve_inheritance_resolved _ _ _ _ _ _ Hd Hown Hres)).
  rewrite (bind_Ok _ _ _ _ _
    (resolve_uri_exact _ _ _ url_prefix action (lookup_insert_eq _ _ _)
       Huri Hext)).
  by rewrite insert_insert_eq.
Qed.

Lemma document_merged_record (h : gmap nat (gmap string value))
    a own func resolved s method action api_docs :
  h !! a = Some own →
  resolved_of h own func = Some resolved →
  well_shaped resolved = true →
  resolved !! "section" = Some (VStr s) →
  let d := fresh (dom h) in
  document relpath root_dir a func url_prefix method action api_docs h
  = Ok (filed api_docs (KStr s) method d
          (KStr <$> filed_uris resolved url_prefix action),
        <[d := merged_record relpath root_dir resolved url_prefix action]> h).
Proof.
  intros Hown Hres Hshape Hsec d.
  destruct (well_shaped_fields _ Hshape)
    as (Huri & Hext & Hvar & _ & c & fp & Hfp).
  rewrite (document_to_uri _ _ _ _ _ _ _ _ Hown Hres Huri Hext). fold d.
  set (uri := folded_uri resolved (canonical_of resolved url_prefix action)).
  set (r1 := <["uri" := VStr uri]> (folded_record resolved)).
  assert (∀ k, k ≠ "uri" → k ≠ "extensions" → r1 !! k = resolved !! k) as Hr1.
  { intros k ??. subst r1. rewrite lookup_insert_ne by done.
    unfold folded_record.
    destruct (resolved !! "extensions") as [[| | |[|?[|??]]| | |]|]; try done.
    by rewrite lookup_delete_ne. }
  assert (r1 !! "filepath" = Some (VStr (String c fp))) as Hfp1
    by (by rewrite Hr1).
  rewrite (bind_Ok _ _ _ _ _
    (relativize_filepath_exact relpath root_dir _ _ _ _ _
       (lookup_insert_eq _ _ _) Hfp1)).
  rewrite insert_insert_eq.
  fold (merged_record relpath root_dir resolved url_prefix action).
  set (merged := merged_record relpath root_dir resolved url_prefix action).
  assert (merged !! "section" = Some (VStr s)) as Hsec'.
  { subst merged. by rewrite merged_record_other. }
  assert (merged !! "uri_variants" = resolved !! "uri_variants") as Hvar'.
  { subst merged. by rewrite merged_record_other. }
  unfold index_variants.
  rewrite (bind_Ok _ _ _ _ _
    (get_at _ _ merged (lookup_insert_eq _ _ _) "uri_variants" (VList []))).
  rewrite Hvar'. unfold filed_uris. fold uri.
  assert (∃ l, default (VList []) (resolved !! "uri_variants") = VList l ∧
               match resolved !! "uri_variants" with
               | Some (VList l) => l
               | _ => []
               end = l) as (l & -> & ->).
  { destruct Hvar as [Hv|[l Hv]]; rewrite Hv; eauto. }
  unfold bind at 1, iter at 1.
  apply (file_under_filed _ d merged method (VStr s) (KStr s)
           (VStr uri :: (VStr <$> l)) (KStr <$> uri :: l) api_docs
           (lookup_insert_eq _ _ _) Hsec' eq_refl).
  change (mapM hashable (VStr uri :: (VStr <$> l)))
    with (k ← hashable (VStr uri); ks ← mapM hashable (VStr <$> l);
          mret (k :: ks)).
  by rewrite mapM_hashable_strings.
Qed.

(** X5. For metadata of the documented shapes the collector computes the
    function [merged_record]: a documented member leaves the store with
    one new record, which is [merged_record] of the record after the
    inheritance step, and the index with that record filed under the
    section of the record, the method of the member, and the URIs
    [filed_uris]. *)
Theorem collector_computes_merged_record (h : gmap nat (gmap string value))
    name func a own resolved s api_docs :
  documented h name func a own →
  resolved_of h own func = Some resolved →
  well_shaped resolved = true →
  resolved !! "section" = Some (VStr s) →
  let d := fresh (dom h) in
  docs_from_member relpath root_dir url_prefix name func api_docs h
  = Ok (filed api_docs (KStr s) (method_of name) d
          (KStr <$> filed_uris resolved url_prefix (action_of name)),
        <[d := merged_record relpath root_dir resolved url_prefix
                 (action_of name)]> h).
Proof.
  intros Hdoc Hres Hshape Hsec d.
  rewrite (docs_from_member_documented _ _ _ _ _ _ _ _ _ Hdoc).
  assert (Hown : h !! a = Some own) by apply Hdoc.
  exact (document_merged_record h a own func resolved s _ _ api_docs
           Hown Hres Hshape Hsec).
Qed.

Lemma member_merged_inv (h h' : gmap nat (gmap string value)) name func a own
    resolved api_docs api_docs' :
  documented h name func a own →
  resolved_of h own func = Some resolved →
  docs_from_member relpath root_dir url_prefix name func api_docs h
  = Ok (api_docs', h') →
  ∃ merged,
    h' = <[fresh (dom h) := merged]> h ∧
    ∀ k, k ≠ "uri" → k ≠ "extensions" → k ≠ "relfilepath" →
         merged !! k = resolved !! k.
Proof.
  intros Hdoc Hres Hrun.
  rewrite (docs_from_member_documented _ _ _ _ _ _ _ _ _ Hdoc) in Hrun.
  assert (Hown : h !! a = Some own) by apply Hdoc.
  apply (document_inv _ _ _ _ _ _ _ _ _ _ _ _ Hown) in Hrun
    as (resolved' & merged & _ & _ & _ & _ & _ & _
        & Hstage & _ & -> & Hmerged & _).
  rewrite (resolve_inheritance_resolved _ _ _ _ _ _
             (proj1 (not_elem_of_dom h _) (is_fresh (dom h))) Hown Hres)
    in Hstage.
  injection Hstage as Heq.
  apply (f_equal (.!! fresh (dom h))) in Heq.
  rewrite !lookup_insert_eq in Heq. injection Heq as ->.
  by exists merged.
Qed.

(** X6. A documented member whose metadata has no [extends] gets no
    [parameters] by default: the merged record has [parameters] exactly
    when the member declares them, and apart from [doc], [uri],
    [extensions] and [relfilepath] it has the fields of the member's
    metadata and no others. *)
Theorem member_without_extends (h h' : gmap nat (gmap string value))
    name func a own api_docs api_docs' :
  documented h name func a own →
  own !! "extends" = None →
  docs_from_member relpath root_dir url_prefix name func api_docs h
  = Ok (api_docs', h') →
  ∃ merged,
    h' !! fresh (dom h) = Some merged ∧
    merged !! "parameters" = own !! "parameters" ∧
    merged !! "extends" = None ∧
    ∀ k, k ≠ "doc" → k ≠ "uri" → k ≠ "extensions" → k ≠ "relfilepath" →
         merged !! k = own !! k.
Proof.
  intros Hdoc Hext Hrun.
  assert (resolved_of h own func = Some (own ∪ {["doc" := doc_of func]}))
    as Hres by (unfold resolved_of; by rewrite Hext).
  destruct (member_merged_inv _ _ _ _ _ _ _ _ _ Hdoc Hres Hrun)
    as (merged & -> & Hmerged).
  assert (∀ k, k ≠ "doc" → k ≠ "uri" → k ≠ "extensions" →
               k ≠ "relfilepath" → merged !! k = own !! k) as Hk.
  { intros k ????. rewrite Hmerged by done. rewrite lookup_union.
    rewrite lookup_singleton_ne by done. by destruct (own !! k). }
  exists merged. split_and!; [apply lookup_insert_eq| | |done].
  - by apply Hk.
  - rewrite Hk by done. done.
Qed.

(** X7. The [doc] of a merged record is the [doc] field of the member's
    own metadata if it has one, else the [doc] field of the record it
    extends if that has one, else the docstring of the member itself
    (or [None]). The docstring of the extended function is not used. *)
Theorem doc_of_merged_record (h h' : gmap nat (gmap string value))
    name func a own resolved api_docs api_docs' :
  documented h name func a own →
  resolved_of h own func = Some resolved →
  docs_from_member relpath root_dir url_prefix name func api_docs h
  = Ok (api_docs', h') →
  let inherited :=
    match own !! "extends" with
    | Some (VRef p) => h !! p ≫= (.!! "doc")
    | _ => None
    end in
  ∃ merged,
    h' !! fresh (dom h) = Some merged ∧
    merged !! "doc"
    = Some (default (default (doc_of func) inherited) (own !! "doc")).
Proof.
  intros Hdoc Hres Hrun inherited.
  destruct (member_merged_inv _ _ _ _ _ _ _ _ _ Hdoc Hres Hrun)
    as (merged & -> & Hmerged).
  exists merged. split; [apply lookup_insert_eq|].
  rewrite Hmerged by done. subst inherited.
  unfold resolved_of in Hres.
  destruct (own !! "extends") as [[| | | | |p|]|]; try done.
  - destruct (h !! p) as [parent|]; [|done]. simpl in *.
    injection Hres as <-. rewrite lookup_union.
    rewrite lookup_insert_ne by done. rewrite lookup_union.
    rewrite lookup_singleton_eq.
    destruct (own !! "doc"), (parent !! "doc"); reflexivity.
  - injection Hres as <-. rewrite lookup_union, lookup_singleton_eq.
    destruct (own !! "doc"); reflexivity.
Qed.

Lemma document_missing_filepath (h : gmap nat (gmap string value))
    a own func resolved method action api_docs :
  h !! a = Some own →
  resolved_of h own func = Some resolved →
  shaped_uri resolved = true → shaped_extensions resolved = true →
  resolved !! "filepath" = None →
  document relpath root_dir a func url_prefix method action api_docs h
  = Raise KeyError.
Proof.
  intros Hown Hres Huri Hext Hfp.
  rewrite (document_to_uri _ _ _ _ _ _ _ _ Hown Hres Huri Hext).
  apply bind_Raise.
  apply (relativize_filepath_missing _ _ _ _ _ (lookup_insert_eq _ _ _)).
  rewrite lookup_insert_ne by done. unfold folded_record.
  destruct (resolved !! "extensions") as [[| | |[|?[|??]]| | |]|]; try done.
  by rewrite lookup_delete_ne.
Qed.

(** X8. A documented member whose record has no [filepath] after the
    inheritance step makes the collector raise [KeyError]: line 113 reads
    [docs['filepath']] without a default. *)
Theorem missing_filepath_raises (h : gmap nat (gmap string value))
    name func a own resolved api_docs :
  documented h name func a own →
  resolved_of h own func = Some resolved →
  shaped_uri resolved = true → shaped_extensions resolved = true →
  resolved !! "filepath" = None →
  docs_from_member relpath root_dir url_prefix name func api_docs h
  = Raise KeyError.
Proof.
  intros Hdoc Hres Huri Hext Hfp.
  rewrite (docs_from_member_documented _ _ _ _ _ _ _ _ _ Hdoc).
  assert (Hown : h !! a = Some own) by apply Hdoc.
  exact (document_missing_filepath h a own func resolved _ _ api_docs
           Hown Hres Huri Hext Hfp).
Qed.

(** X9. When [uri_variants] is a string instead of a list of strings,
    the loop of line 118 runs over its characters: the record is filed
    under its URI and under every one-character string of the value. *)
Theorem string_variants_are_split (h : gmap nat (gmap string value))
    name func a own resolved s c fp v api_docs :
  documented h name func a own →
  resolved_of h own func = Some resolved →
  shaped_uri resolved = true → shaped_extensions resolved = true →
  resolved !! "section" = Some (VStr s) →
  resolved !! "filepath" = Some (VStr (String c fp)) →
  resolved !! "uri_variants" = Some (VStr v) →
  let d := fresh (dom h) in
  let uri := folded_uri resolved
               (canonical_of resolved url_prefix (action_of name)) in
  docs_from_member relpath root_dir url_prefix name func api_docs h
  = Ok (filed api_docs (KStr s) (method_of name) d (KStr <$> uri :: chars v),
        <[d := merged_record relpath root_dir resolved url_prefix
                 (action_of name)]> h).
Proof.
  intros Hdoc Hres Huri Hext Hsec Hfp Hvar d uri.
  rewrite (docs_from_member_documented _ _ _ _ _ _ _ _ _ Hdoc).
  assert (Hown : h !! a = Some own) by apply Hdoc.
  rewrite (document_to_uri _ _ _ _ _ _ _ _ Hown Hres Huri Hext).
  fold d uri.
  set (r1 := <["uri" := VStr uri]> (folded_record resolved)).
  assert (r1 !! "filepath" = Some (VStr (String c fp))) as Hfp1.
  { subst r1. rewrite lookup_insert_ne by done. unfold folded_record.
    destruct (resolved !! "extensions") as [[| | |[|?[|??]]| | |]|]; try done.
    by rewrite lookup_delete_ne. }
  rewrite (bind_Ok _ _ _ _ _
    (relativize_filepath_exact relpath root_dir _ _ _ _ _
       (lookup_insert_eq _ _ _) Hfp1)).
  rewrite insert_insert_eq.
  fold (merged_record relpath root_dir resolved url_prefix (action_of name)).
  set (merged := merged_record relpath root_dir resolved url_prefix
                   (action_of name)).
  assert (merged !! "section" = Some (VStr s)) as Hsec'.
  { subst merged. by rewrite merged_record_other. }
  assert (merged !! "uri_variants" = Some (VStr v)) as Hvar'.
  { subst merged. by rewrite merged_record_other. }
  unfold index_variants.
  rewrite (bind_Ok _ _ _ _ _
    (get_at _ _ merged (lookup_insert_eq _ _ _) "uri_variants" (VList []))).
  rewrite Hvar'. simpl default. unfold bind at 1, iter at 1.
  apply (file_under_filed _ d merged (method_of name) (VStr s) (KStr s)
           (VStr uri :: (VStr <$> chars v)) (KStr <$> uri :: chars v) api_docs
           (lookup_insert_eq _ _ _) Hsec' eq_refl).
  change (mapM hashable (VStr uri :: (VStr <$> chars v)))
    with (k ← hashable (VStr uri); ks ← mapM hashable (VStr <$> chars v);
          mret (k :: ks)).
  by rewrite mapM_hashable_strings.
Qed.
End collector_more.

(** * Inheritance, extension folding and the empty URI in the collector *)

Lemma relativized_other relpath root_dir (r : gmap string value) k :
  k ≠ "relfilepath" → relativized relpath root_dir r !! k = r !! k.
Proof.
  intros Hk. unfold relativized.
  destruct (r !! "filepath") as [[|fp| | | | |]|]; try done.
  destruct (String.prefix root_dir fp); [|done].
  by rewrite lookup_insert_ne.
Qed.

Lemma merged_record_uri relpath root_dir (resolved : gmap string value)
    url_prefix action :
  merged_record relpath root_dir resolved url_prefix action !! "uri"
  = Some (VStr (folded_uri resolved (canonical_of resolved url_prefix action))).
Proof.
  unfold merged_record. rewrite relativized_other by done.
  apply lookup_insert_eq.
Qed.

Lemma merged_record_extensions relpath root_dir (resolved : gmap string value)
    url_prefix action :
  merged_record relpath root_dir resolved url_prefix action !! "extensions"
  = match resolved !! "extensions" with
    | Some (VList [_]) => None
    | ext => ext
    end.
Proof.
  unfold merged_record. rewrite relativized_other by done.
  rewrite lookup_insert_ne by done. unfold folded_record.
  destruct (resolved !! "extensions") as [[| | |[|?[|??]]| | |]|] eqn:Hext;
    try done.
  apply lookup_delete_eq.
Qed.

Lemma canonical_of_declared (r : gmap string value) url_prefix action v :
  r !! "uri" = Some (VStr v) → v ≠ "" → canonical_of r url_prefix action = v.
Proof. intros Hu Hv. unfold canonical_of. rewrite Hu. by destruct v. Qed.

Lemma canonical_of_derived (r : gmap string value) url_prefix action :
  r !! "uri" = None ∨ r !! "uri" = Some (VStr "") →
  canonical_of r url_prefix action = url_prefix +:+ "/" +:+ action.
Proof. intros [Hu|Hu]; unfold canonical_of; by rewrite Hu. Qed.

Lemma folded_uri_nonempty (r : gmap string value) url_prefix action :
  folded_uri r (url_prefix +:+ "/" +:+ action) ≠ "".
Proof.
  unfold folded_uri.
  destruct (r !! "extensions") as [[| | |[|?[|??]]| | |]|];
    by destruct url_prefix.
Qed.

Lemma merged_record_absent_uri relpath root_dir (resolved : gmap string value)
    url_prefix action :
  resolved !! "uri" = Some (VStr "") →
  merged_record relpath root_dir (delete "uri" resolved) url_prefix action
  = merged_record relpath root_dir resolved url_prefix action ∧
  filed_uris (delete "uri" resolved) url_prefix action
  = filed_uris resolved url_prefix action.
Proof.
  intros Hu.
  assert (canonical_of (delete "uri" resolved) url_prefix action
          = canonical_of resolved url_prefix action) as Hcanon.
  { rewrite !canonical_of_derived; [done|by right|left].
    apply lookup_delete_eq. }
  assert (folded_uri (delete "uri" resolved)
            (canonical_of resolved url_prefix action)
          = folded_uri resolved (canonical_of resolved url_prefix action))
    as Hfold.
  { unfold folded_uri. by rewrite lookup_delete_ne. }
  split.
  - unfold merged_record. rewrite Hcanon, Hfold. f_equal.
    unfold folded_record. rewrite lookup_delete_ne by done.
    destruct (resolved !! "extensions") as [[| | |[|?[|??]]| | |]|];
      try apply insert_delete_eq.
    rewrite delete_delete. apply insert_delete_eq.
  - unfold filed_uris. rewrite Hcanon, Hfold.
    by rewrite lookup_delete_ne.
Qed.

Lemma well_shaped_absent_uri (resolved : gmap string value) :
  well_shaped resolved = true → well_shaped (delete "uri" resolved) = true.
Proof.
  unfold well_shaped. rewrite lookup_delete_eq.
  rewrite !lookup_delete_ne by done.
  by destruct (resolved !! "uri") as [[]|].
Qed.

Section collector_claims.

Context (relpath : string → string → string) (root_dir : string).
Context (url_prefix : string).

(** What the collector does with a documented member of the documented
    shapes, with the entry under the URI of the merged record. *)
Lemma member_merged_entry (h : gmap nat (gmap string value))
    name func a own resolved api_docs :
  documented h name func a own →
  resolved_of h own func = Some resolved →
  well_shaped resolved = true →
  let docs := fresh (dom h) in
  let merged :=
    merged_record relpath root_dir resolved url_prefix (action_of name) in
  let uri :=
    folded_uri resolved (canonical_of resolved url_prefix (action_of name)) in
  ∃ s,
    resolved !! "section" = Some (VStr s) ∧
    docs_from_member relpath root_dir url_prefix name func api_docs h
    = Ok (filed api_docs (KStr s) (method_of name) docs
            (KStr <$> filed_uris resolved url_prefix (action_of name)),
          <[docs := merged]> h) ∧
    entry (filed api_docs (KStr s) (method_of name) docs
             (KStr <$> filed_uris resolved url_prefix (action_of name)))
      (KStr s) (KStr uri) (method_of name) = Some docs.
Proof.
  intros Hdoc Hres Hshape docs merged uri.
  destruct (well_shaped_fields _ Hshape) as (_ & _ & _ & [s Hsec] & _).
  exists s. split; [exact Hsec|]. split.
  - rewrite (docs_from_member_documented _ _ _ _ _ _ _ _ _ Hdoc).
    assert (Hown : h !! a = Some own) by apply Hdoc.
    exact (document_merged_record relpath root_dir url_prefix h a own func
             resolved s _ _ api_docs Hown Hres Hshape Hsec).
  - rewrite entry_filed. rewrite decide_True; [done|].
    split_and!; [done| |done].
    unfold filed_uris. fold uri. rewrite fmap_cons. apply elem_of_cons.
    by left.
Qed.


(** C4. For a documented member of the documented shapes the collector
    returns with one new record, the merged record. When the extensions
    of the record after the inheritance step hold exactly one entry, the
    [uri] of the merged record is the canonical URI with a dot and that
    entry appended, and the merged record has no [extensions]; with no
    entry, with several, or without the field, its [uri] is the canonical
    URI and [extensions] is as it was. The record is filed under that
    [uri], and none of its fields but [uri], [extensions] and
    [relfilepath] differs from the record after the inheritance step. *)
Theorem extension_folding (h : gmap nat (gmap string value))
    name func a own resolved api_docs :
  documented h name func a own →
  resolved_of h own func = Some resolved →
  well_shaped resolved = true →
  let docs := fresh (dom h) in
  let canon := canonical_of resolved url_prefix (action_of name) in
  ∃ api_docs' merged s uri,
    docs_from_member relpath root_dir url_prefix name func api_docs h
    = Ok (api_docs', <[docs := merged]> h) ∧
    resolved !! "section" = Some (VStr s) ∧
    merged !! "uri" = Some (VStr uri) ∧
    entry api_docs' (KStr s) (KStr uri) (method_of name) = Some docs ∧
    (∀ e, resolved !! "extensions" = Some (VList [e]) →
          uri = canon +:+ "." +:+ e ∧ merged !! "extensions" = None) ∧
    (∀ l, resolved !! "extensions" = Some (VList l) → length l ≠ 1 →
          uri = canon ∧ merged !! "extensions" = Some (VList l)) ∧
    (resolved !! "extensions" = None →
     uri = canon ∧ merged !! "extensions" = None) ∧
    (∀ v, resolved !! "uri" = Some (VStr v) → v ≠ "" → canon = v) ∧
    (∀ k, k ≠ "uri" → k ≠ "extensions" → k ≠ "relfilepath" →
          merged !! k = resolved !! k).
Proof.
  intros Hdoc Hres Hshape docs canon.
  destruct (member_merged_entry h name func a own resolved api_docs
              Hdoc Hres Hshape) as (s & Hsec & Hrun & Hentry).
  eexists _, _, s, (folded_uri resolved canon).
  split; [exact Hrun|]. split; [exact Hsec|].
  split; [apply merged_record_uri|]. split; [exact Hentry|].
  split_and!.
  - intros e He. rewrite merged_record_extensions.
    unfold folded_uri. by rewrite He.
  - intros l Hl Hlen. rewrite merged_record_extensions.
    unfold folded_uri. rewrite Hl. by destruct l as [|?[|??]].
  - intros Hnone. rewrite merged_record_extensions.
    unfold folded_uri. by rewrite Hnone.
  - intros v Hv Hne. by apply canonical_of_declared.
  - intros k ???. by apply merged_record_other.
Qed.

(** C10. A documented member of the documented shapes whose [uri], after
    the inheritance step, is the empty string is collected like a member
    without [uri]: the [uri] of its merged record is the prefix and the
    action joined by a slash, with the single extension appended if there
    is one, which is never the empty string; the record is filed under
    that URI; and the run is the run of a member whose record after the
    inheritance step is the same without the field [uri]. *)
Theorem empty_uri_is_derived (h : gmap nat (gmap string value))
    name func a own resolved api_docs :
  documented h name func a own →
  resolved_of h own func = Some resolved →
  well_shaped resolved = true →
  resolved !! "uri" = Some (VStr "") →
  let docs := fresh (dom h) in
  let derived := url_prefix +:+ "/" +:+ action_of name in
  let uri := folded_uri resolved derived in
  ∃ api_docs' merged s,
    docs_from_member relpath root_dir url_prefix name func api_docs h
    = Ok (api_docs', <[docs := merged]> h) ∧
    resolved !! "section" = Some (VStr s) ∧
    merged !! "uri" = Some (VStr uri) ∧ uri ≠ "" ∧
    entry api_docs' (KStr s) (KStr uri) (method_of name) = Some docs ∧
    (resolved !! "extensions" = None → uri = derived) ∧
    ∀ func' a' own',
      documented h name func' a' own' →
      resolved_of h own' func' = Some (delete "uri" resolved) →
      docs_from_member relpath root_dir url_prefix name func' api_docs h
      = Ok (api_docs', <[docs := merged]> h).
Proof.
  intros Hdoc Hres Hshape Hempty docs derived uri.
  destruct (member_merged_entry h name func a own resolved api_docs
              Hdoc Hres Hshape) as (s & Hsec & Hrun & Hentry).
  assert (canonical_of resolved url_prefix (action_of name) = derived)
    as Hcanon by (apply canonical_of_derived; by right).
  rewrite Hcanon in Hentry. fold uri in Hentry.
  eexists _, _, s. split; [exact Hrun|]. split; [exact Hsec|].
  split_and!.
  - rewrite merged_record_uri. by rewrite Hcanon.
  - apply folded_uri_nonempty.
  - exact Hentry.
  - intros Hnone. subst uri. unfold folded_uri. by rewrite Hnone.
  - intros func' a' own' Hdoc' Hres'.
    destruct (member_merged_entry h name func' a' own' _ api_docs
                Hdoc' Hres' (well_shaped_absent_uri _ Hshape))
      as (s' & Hsec' & Hrun' & _).
    rewrite lookup_delete_ne in Hsec' by done.
    assert (s' = s) as -> by congruence.
    destruct (merged_record_absent_uri relpath root_dir resolved url_prefix
                (action_of name) Hempty) as [Hmerged Huris].
    rewrite Hrun'. by rewrite Hmerged, Huris.
Qed.

End collector_claims.

(** * The index that the collector returns *)

Lemma resolve_inheritance_doc (h h' : gmap nat (gmap string value)) d a
    (r0 own : gmap string value) func :
  h !! d = Some r0 → h !! a = Some own → d ≠ a →
  resolve_inheritance d a func h = Ok ((), h') →
  ∃ r, h' = <[d := r]> h ∧ is_Some (r !! "doc").
Proof.
  intros Hd Ha Hne Hrun. unfold resolve_inheritance in Hrun.
  rewrite (bind_Ok _ _ _ _ _ (setitem_at _ _ _ Hd _ _)) in Hrun.
  inv_bind Hrun. inv_read E.
  inv_bind Hrun.
  assert (∃ r1, h0 = <[d := r1]> h ∧ is_Some (r1 !! "doc")) as (r1 & -> & Hr1).
  { case_if E.
    - inv_bind E. inv_read E0.
      inv_bind E. unfold dict_update in E0. inv_bind E0. inv_read E1.
      erewrite update_with_at in E0 by apply lookup_insert_eq.
      simplify_eq.
      erewrite setitem_at in E by apply lookup_insert_eq. simplify_eq.
      rewrite !insert_insert_eq. eexists. split; [done|].
      rewrite lookup_insert_ne by done. rewrite lookup_union.
      rewrite lookup_insert_eq. destruct (_ !! "doc"); simpl; eauto.
    - inv_read E. eexists. split; [done|].
      rewrite lookup_insert_eq. eauto. }
  unfold dict_update in Hrun. inv_bind Hrun.
  pose proof E0 as E1. inv_read E1.
  erewrite update_items_ref in E0 by (by rewrite lookup_insert_ne).
  simplify_eq.
  erewrite update_with_at in Hrun by apply lookup_insert_eq.
  simplify_eq. rewrite insert_insert_eq. eexists. split; [done|].
  rewrite lookup_union. destruct Hr1 as [v ->].
  destruct (_ !! "doc"); simpl; eauto.
Qed.

Lemma relativize_filepath_reads relpath root_dir
    (h h' : gmap nat (gmap string value)) d (r : gmap string value) :
  h !! d = Some r →
  relativize_filepath relpath root_dir d h = Ok ((), h') →
  is_Some (r !! "filepath").
Proof.
  intros Hd Hrun. unfold relativize_filepath in Hrun.
  inv_bind Hrun. unfold getitem in E.
  rewrite (deref_lookup _ _ _ Hd) in E.
  destruct (r !! "filepath"); [eauto|done].
Qed.

Section index_invariant.
Context (relpath : string → string → string) (root_dir : string).
Context (url_prefix : string).

Lemma document_fields (h h' : gmap nat (gmap string value)) a own func
    method action api_docs api_docs' :
  h !! a = Some own →
  document relpath root_dir a func url_prefix method action api_docs h
  = Ok (api_docs', h') →
  ∃ merged,
    h' !! fresh (dom h) = Some merged ∧
    is_Some (merged !! "doc") ∧ is_Some (merged !! "filepath").
Proof.
  intros Hown Hrun. set (d := fresh (dom h)).
  assert (d ∉ dom h) as Hfresh by apply is_fresh.
  assert (d ≠ a) as Hne.
  { intros ->. apply Hfresh, elem_of_dom. eauto. }
  unfold document in Hrun.
  unfold bind at 1, new_dict at 1 in Hrun. fold d in Hrun.
  inv_bind Hrun. destruct x.
  assert (<[d := ∅]> h !! d = Some ∅) as Hd0 by apply lookup_insert_eq.
  assert (<[d := ∅]> h !! a = Some own) as Hown0
    by (by rewrite lookup_insert_ne).
  apply (resolve_inheritance_doc _ _ _ _ _ _ _ Hd0 Hown0 Hne) in E
    as (r0 & -> & Hdoc0).
  rewrite insert_insert_eq in Hrun.
  inv_bind Hrun.
  apply (resolve_uri_inv _ _ _ _ _ _ _ (lookup_insert_eq _ _ _)) in E
    as (r1 & -> & _ & Hr1).
  rewrite insert_insert_eq in Hrun.
  inv_bind Hrun. destruct x0.
  pose proof (relativize_filepath_reads _ _ _ _ _ _
                (lookup_insert_eq _ _ _) E) as Hfp.
  apply (relativize_filepath_inv _ _ _ _ _ _ (lookup_insert_eq _ _ _)) in E
    as (r2 & -> & Hr2).
  rewrite insert_insert_eq in Hrun.
  apply (index_variants_inv _ _ _ _ _ _ _ _ (lookup_insert_eq _ _ _)) in Hrun
    as (? & ? & ? & ? & ? & _ & _ & _ & _ & _ & -> & _).
  exists r2. split_and!.
  - apply lookup_insert_eq.
  - rewrite Hr2, Hr1 by done. done.
  - rewrite Hr2 by done. done.
Qed.

Lemma well_filed_frame (h h' : gmap nat (gmap string value)) s u m d :
  h ⊆ h' → well_filed h s u m d → well_filed h' s u m d.
Proof.
  intros Hsub (merged & sec & uri & Hd & Hrest).
  exists merged, sec, uri. split; [by eapply lookup_weaken|done].
Qed.

Lemma docs_from_member_well_filed (h h' : gmap nat (gmap string value))
    name func api_docs api_docs' :
  (∀ s u m d, entry api_docs s u m = Some d → well_filed h s u m d) →
  docs_from_member relpath root_dir url_prefix name func api_docs h
  = Ok (api_docs', h') →
  ∀ s u m d, entry api_docs' s u m = Some d → well_filed h' s u m d.
Proof.
  intros Hinv Hrun.
  pose proof (docs_from_member_frame _ _ _ _ _ _ _ _ _ Hrun) as Hsub.
  apply docs_from_member_cases in Hrun
    as [[-> ->]|(a & own & Hdoc & Hrun)]; [done|].
  assert (Hown : h !! a = Some own) by apply Hdoc.
  destruct (document_fields _ _ _ _ _ _ _ _ _ Hown Hrun)
    as (merged0 & Hm0 & Hdoc0 & Hfp0).
  apply (document_inv _ _ _ _ _ _ _ _ _ _ _ _ Hown) in Hrun
    as (resolved & merged & sec & s0 & uri & u0 & variants & uris
        & _ & _ & -> & _ & Huri & Hsec & Hs & Hu & Hiter & Huris & ->).
  rewrite lookup_insert_eq in Hm0. injection Hm0 as <-.
  intros s u m d. rewrite entry_filed. case_decide as Hkey.
  - destruct Hkey as (-> & Hin & ->). intros [= <-].
    exists merged, sec, uri. split_and!; try done.
    + apply lookup_insert_eq.
    + apply Hdoc.
    + intros Hnone. rewrite Hnone in Hiter. simpl in Hiter.
      unfold iter in Hiter. injection Hiter as <-.
      injection Huris as <-.
      apply elem_of_cons in Hin as [->|Hin]; [done|].
      by apply elem_of_nil in Hin.
    + intros l Hl. rewrite Hl in Hiter. simpl in Hiter.
      unfold iter in Hiter. injection Hiter as <-.
      rewrite mapM_hashable_strings in Huris. injection Huris as <-.
      apply elem_of_cons in Hin as [->|Hin]; [by left|by right].
  - intros Hentry. eapply well_filed_frame; [done|]. by apply Hinv.
Qed.

Lemma docs_loop_well_filed members : ∀ (h h' : gmap nat (gmap string value))
    api_docs api_docs',
  (∀ s u m d, entry api_docs s u m = Some d → well_filed h s u m d) →
  docs_loop relpath root_dir url_prefix members api_docs h
  = Ok (api_docs', h') →
  ∀ s u m d, entry api_docs' s u m = Some d → well_filed h' s u m d.
Proof.
  induction members as [|[name func] members IH];
    intros h h' api_docs api_docs' Hinv Hrun; simpl in Hrun.
  - unfold ret in Hrun. by simplify_eq.
  - inv_bind Hrun. eapply IH; [|done].
    by eapply docs_from_member_well_filed.
Qed.

(** X10. Every entry of the index that the collector returns is well
    filed: its method is GET or POST, its record is in the store and has
    the fields [section], [uri], [doc] and [filepath], the section it is
    under is the section of the record, and, when the variants of the
    record are absent or a list, the URI it is under is the URI of the
    record or one of its variants. *)
Theorem collected_entries_are_well_filed (h h' : gmap nat (gmap string value))
    controller api_docs s u m d :
  docs_from_controller relpath root_dir controller url_prefix h
  = Ok (api_docs, h') →
  entry api_docs s u m = Some d →
  well_filed h' s u m d.
Proof.
  intros Hrun. unfold docs_from_controller in Hrun.
  eapply docs_loop_well_filed; [|done].
  intros s0 u0 m0 d0. unfold entry. by rewrite lookup_empty.
Qed.
End index_invariant.

(** * More on the aggregator (lines 123-142) *)

Section aggregator_more.
Context (relpath : string → string → string) (root_dir : string).

Lemma GET_docs_loop_collect sources : ∀ api_docs
    (h : gmap nat (gmap string value)),
  GET_docs_loop relpath root_dir sources api_docs h
  = (let! parts := collect_each relpath root_dir sources in
     ret (foldl merge_docs api_docs parts)) h.
Proof.
  induction sources as [|[controller url_prefix] sources IH];
    intros api_docs h; [reflexivity|].
  simpl. unfold bind.
  destruct (docs_from_controller _ _ controller url_prefix h)
    as [[part h1]|e]; [|reflexivity].
  rewrite IH. unfold bind.
  destruct (collect_each _ _ sources h1) as [[parts h2]|e]; reflexivity.
Qed.

Lemma methods_at_foldl_merge parts : ∀ api_docs s u,
  methods_at (foldl merge_docs api_docs parts) s u
  = foldl (λ found part,
             match methods_at part s u with
             | Some by_method => Some by_method
             | None => found
             end)
          (methods_at api_docs s u) parts.
Proof.
  induction parts as [|part parts IH]; intros api_docs s u; [done|].
  simpl. by rewrite IH, methods_at_merge_docs.
Qed.

Lemma last_methods_at_app parts part s u :
  last_methods_at (parts ++ [part])%list s u
  = match methods_at part s u with
    | Some by_method => Some by_method
    | None => last_methods_at parts s u
    end.
Proof. unfold last_methods_at. by rewrite foldl_app. Qed.

Lemma last_methods_at_is_Some parts s u :
  is_Some (last_methods_at parts s u)
  ↔ ∃ part, part ∈ parts ∧ is_Some (methods_at part s u).
Proof.
  induction parts as [|part parts IH] using rev_ind.
  - split; [by intros [??]|]. intros (? & []%elem_of_nil & _).
  - rewrite last_methods_at_app. split.
    + destruct (methods_at part s u) as [bm|] eqn:Hm.
      * intros _. exists part. split; [|by rewrite Hm].
        apply elem_of_app. right. apply elem_of_cons. by left.
      * intros (p & Hin & Hp)%IH. exists p. split; [|done].
        apply elem_of_app. by left.
    + intros (p & Hin & Hp).
      destruct (methods_at part s u) as [bm|] eqn:Hm; [done|].
      apply IH. apply elem_of_app in Hin as [Hin|Hin]; [by exists p|].
      apply elem_of_cons in Hin as [->|[]%elem_of_nil].
      rewrite Hm in Hp. by destruct Hp.
Qed.

Lemma collect_each_length sources : ∀ (h h' : gmap nat (gmap string value))
    parts,
  collect_each relpath root_dir sources h = Ok (parts, h') →
  length parts = length sources.
Proof.
  induction sources as [|[controller url_prefix] sources IH];
    intros h h' parts Hrun; simpl in Hrun.
  - unfold ret in Hrun. by simplify_eq.
  - inv_bind Hrun. inv_bind Hrun. unfold ret in Hrun. simplify_eq.
    simpl. f_equal. by eapply IH.
Qed.

(** X11. For any number of sources the aggregated index is decided URI by
    URI: the methods of a section and URI are those of the last source, in
    the order of the list, whose partial index has that URI, and the
    result has a URI exactly when some source has it. *)
Theorem aggregation_last_source_wins (h h' : gmap nat (gmap string value))
    sources api_docs :
  GET_docs relpath root_dir sources h = Ok (api_docs, h') →
  ∃ parts,
    collect_each relpath root_dir sources h = Ok (parts, h') ∧
    length parts = length sources ∧
    (∀ s u, methods_at api_docs s u = last_methods_at parts s u) ∧
    (∀ s u m, entry api_docs s u m = last_methods_at parts s u ≫= (.!! m)) ∧
    (∀ s u, is_Some (methods_at api_docs s u)
            ↔ ∃ part, part ∈ parts ∧ is_Some (methods_at part s u)).
Proof.
  unfold GET_docs. rewrite GET_docs_loop_collect. intros Hrun.
  inv_bind Hrun. unfold ret in Hrun. injection Hrun as <- <-.
  assert (∀ s u, methods_at (foldl merge_docs ∅ x) s u
                 = last_methods_at x s u) as Hlast.
  { intros s u. by rewrite methods_at_foldl_merge, methods_at_empty. }
  exists x. split_and!; try done.
  - by eapply collect_each_length.
  - intros s u m. by rewrite entry_methods_at, Hlast.
  - intros s u. rewrite Hlast. apply last_methods_at_is_Some.
Qed.

Lemma entry_merge_docs (api_docs part : gmap hkey (gmap hkey (gmap string nat)))
    s u m d :
  entry (merge_docs api_docs part) s u m = Some d →
  entry part s u m = Some d ∨ entry api_docs s u m = Some d.
Proof.
  rewrite !entry_methods_at, methods_at_merge_docs.
  destruct (methods_at part s u); [by left|by right].
Qed.

Lemma GET_docs_loop_well_filed sources : ∀ (h0 h h' : gmap nat (gmap string value))
    api_docs api_docs',
  h0 ⊆ h →
  (∀ s u m d, entry api_docs s u m = Some d →
              h0 !! d = None ∧ well_filed h s u m d) →
  GET_docs_loop relpath root_dir sources api_docs h = Ok (api_docs', h') →
  h0 ⊆ h' ∧
  ∀ s u m d, entry api_docs' s u m = Some d →
             h0 !! d = None ∧ well_filed h' s u m d.
Proof.
  induction sources as [|[controller url_prefix] sources IH];
    intros h0 h h' api_docs api_docs' Hsub Hinv Hrun; simpl in Hrun.
  - unfold ret in Hrun. by simplify_eq.
  - inv_bind Hrun. rename x into part, h1 into h1.
    unfold docs_from_controller in E.
    pose proof (docs_loop_frame _ _ _ _ _ _ _ _ E) as Hsub1.
    eapply (IH h0 h1); [by etrans| |done].
    intros s u m d [Hpart|Hacc]%entry_merge_docs.
    + split.
      * eapply lookup_weaken_None; [|exact Hsub].
        eapply (docs_loop_new _ _ _ _ h h h1 ∅ part); [done| |done|done].
        intros ????. unfold entry. by rewrite lookup_empty.
      * eapply (docs_loop_well_filed _ _ _ _ h h1 ∅ part); [|done|done].
        intros ????. unfold entry. by rewrite lookup_empty.
    + destruct (Hinv _ _ _ _ Hacc) as [Hnew Hfiled]. split; [done|].
      by eapply well_filed_frame.
Qed.

(** X12. An aggregation that returns leaves every record that was in the
    store as it was, and every entry of the aggregated index is a record
    built by the aggregation and is well filed. *)
Theorem aggregator_leaves_metadata_alone (h h' : gmap nat (gmap string value))
    sources api_docs :
  GET_docs relpath root_dir sources h = Ok (api_docs, h') →
  (∀ a r, h !! a = Some r → h' !! a = Some r) ∧
  (∀ s u m d, entry api_docs s u m = Some d →
              h !! d = None ∧ well_filed h' s u m d).
Proof.
  intros Hrun. unfold GET_docs in Hrun.
  destruct (GET_docs_loop_well_filed sources h h h' ∅ api_docs) as [Hsub Hinv];
    [done| |done|].
  { intros ????. unfold entry. by rewrite lookup_empty. }
  split; [|done]. intros a r Ha. by eapply lookup_weaken.
Qed.

Lemma endswith_spec name suffix :
  endswith name suffix = true ↔ ∃ stem, name = stem +:+ suffix.
Proof.
  induction name as [|c name IH]; simpl.
  - rewrite orb_false_r, bool_decide_eq_true. split.
    + intros <-. by exists "".
    + intros [[|??] Hstem]; simpl in Hstem; [done|discriminate].
  - rewrite orb_true_iff, bool_decide_eq_true, IH. split.
    + intros [<-|[stem ->]]; [by exists ""|by exists (String c stem)].
    + intros [[|c' stem] Hstem]; simpl in Hstem; [by left|].
      injection Hstem as <- ->. right. by exists stem.
Qed.

Lemma collect_each_app sources1 : ∀ sources2
    (h h' : gmap nat (gmap string value)) parts,
  collect_each relpath root_dir (sources1 ++ sources2)%list h = Ok (parts, h') →
  ∃ parts1 h1 parts2,
    collect_each relpath root_dir sources1 h = Ok (parts1, h1) ∧
    collect_each relpath root_dir sources2 h1 = Ok (parts2, h') ∧
    parts = (parts1 ++ parts2)%list.
Proof.
  induction sources1 as [|[controller url_prefix] sources1 IH];
    intros sources2 h h' parts Hrun; simpl in Hrun.
  - by exists [], h, parts.
  - inv_bind Hrun. inv_bind Hrun. unfold ret in Hrun. simplify_eq.
    apply IH in E0 as (parts1 & h2 & parts2 & H1 & H2 & ->).
    exists (x :: parts1), h2, parts2. split_and!; [|done..].
    simpl. rewrite (bind_Ok _ _ _ _ _ E). by rewrite (bind_Ok _ _ _ _ _ H1).
Qed.

Lemma last_methods_at_app_list parts1 parts2 s u :
  last_methods_at (parts1 ++ parts2)%list s u
  = match last_methods_at parts2 s u with
    | Some by_method => Some by_method
    | None => last_methods_at parts1 s u
    end.
Proof.
  induction parts2 as [|part parts2 IH] using rev_ind.
  - by rewrite app_nil_r.
  - rewrite app_assoc, !last_methods_at_app, IH.
    by destruct (methods_at part s u).
Qed.

(** X13. The sources of the documentation are the two API controllers
    under [/api], the front page controller under the empty prefix, and
    after them the controllers of the listing module under the empty
    prefix; a member of the listing module is a source exactly when its
    name is some stem followed by [Controller]. So where a listing
    controller documents a URI, the methods of that URI come from a
    listing controller and not from the first three. *)
Theorem listing_controllers_win (h h' : gmap nat (gmap string value))
    ApiController ApiminimalController FrontController listingcontroller
    api_docs :
  GET_docs relpath root_dir
    (api_controllers ApiController ApiminimalController FrontController
       listingcontroller) h = Ok (api_docs, h') →
  (∀ source, source ∈ listing_sources listingcontroller
             ↔ ∃ stem controller,
                 (stem +:+ "Controller", controller) ∈ listingcontroller ∧
                 source = (controller, "")) ∧
  ∃ api apiminimal front listings h1,
    collect_each relpath root_dir
      [(ApiController, "/api"); (ApiminimalController, "/api");
       (FrontController, "")] h = Ok ([api; apiminimal; front], h1) ∧
    collect_each relpath root_dir (listing_sources listingcontroller) h1
    = Ok (listings, h') ∧
    ∀ s u,
      methods_at api_docs s u
      = match last_methods_at listings s u with
        | Some by_method => Some by_method
        | None => last_methods_at [api; apiminimal; front] s u
        end.
Proof.
  intros Hrun. split.
  - intros source. unfold listing_sources. rewrite list_elem_of_fmap. split.
    + intros ([name controller] & -> & [Hname Hin]%list_elem_of_filter).
      simpl in *. apply endswith_spec in Hname as [stem ->].
      by exists stem, controller.
    + intros (stem & controller & Hin & ->).
      exists (stem +:+ "Controller", controller). split; [done|].
      apply list_elem_of_filter. split; [|done].
      apply endswith_spec. by exists stem.
  - unfold GET_docs in Hrun. rewrite GET_docs_loop_collect in Hrun.
    inv_bind Hrun. unfold ret in Hrun. injection Hrun as <- <-.
    unfold api_controllers in E.
    apply collect_each_app in E as (parts1 & h1 & parts2 & H1 & H2 & ->).
    pose proof (collect_each_length _ _ _ _ H1) as Hlen.
    destruct parts1 as [|api [|apiminimal [|front [|??]]]]; try done.
    exists api, apiminimal, front, parts2, h1. split_and!; [done..|].
    intros s u.
    by rewrite methods_at_foldl_merge, methods_at_empty,
      <-last_methods_at_app_list.
Qed.
End aggregator_more.

(** * Attaching and then collecting *)

Lemma filed_uris_fields (r1 r2 : gmap string value) url_prefix action :
  r1 !! "uri" = r2 !! "uri" → r1 !! "extensions" = r2 !! "extensions" →
  r1 !! "uri_variants" = r2 !! "uri_variants" →
  filed_uris r1 url_prefix action = filed_uris r2 url_prefix action.
Proof.
  intros Hu He Hv. unfold filed_uris, folded_uri, canonical_of.
  by rewrite Hu, He, Hv.
Qed.

Lemma attached_fresh_lookup section (kwargs : gmap string value) fn k :
  k ≠ "section" → k ≠ "filepath" → k ≠ "lineno" →
  attached section kwargs fn ∅ !! k = kwargs !! k.
Proof.
  intros ???. unfold attached.
  rewrite !lookup_insert_ne by done. by rewrite (right_id ∅ (∪)).
Qed.

Section round_trip.

Context (relpath : string → string → string) (root_dir url_prefix : string).

(** X14. A function that has no metadata yet is decorated with a section
    name and keyword arguments without [extends], whose [uri], [extensions]
    and [uri_variants] have the documented shapes, and is then collected as
    a member with a documented name. The collector files one new record
    under the section, the method of the name, and the URIs computed from
    the keyword arguments. The record has the section, the file name and
    the line of the function, the [doc] keyword if there is one and the
    docstring otherwise, and every other keyword argument as it was given. *)
Theorem attached_function_is_collected (h : gmap nat (gmap string value))
    (funcs : nat → function) f s (kwargs : gmap string value) name c fp api_docs :
  _api_doc (funcs f) = None →
  kwargs !! "extends" = None →
  shaped_uri kwargs = true →
  shaped_extensions kwargs = true →
  shaped_variants kwargs = true →
  co_filename (funcs f) = String c fp →
  action_of name ≠ "" →
  method_of name ∈ ["GET"; "POST"] →
  ∃ funcs' h1 merged,
    api_doc (VStr s) kwargs f funcs h = Ok (funcs', h1) ∧
    docs_from_member relpath root_dir url_prefix name (funcs' f) api_docs h1
    = Ok (filed api_docs (KStr s) (method_of name) (fresh (dom h1))
            (KStr <$> filed_uris kwargs url_prefix (action_of name)),
          <[fresh (dom h1) := merged]> h1) ∧
    merged !! "section" = Some (VStr s) ∧
    merged !! "filepath" = Some (VStr (co_filename (funcs f))) ∧
    merged !! "lineno" = Some (VInt (co_firstlineno (funcs f))) ∧
    merged !! "doc" = Some (default (doc_of (funcs f)) (kwargs !! "doc")) ∧
    ∀ k, k ∉ ["section"; "filepath"; "lineno"; "doc"; "uri"; "extensions";
              "relfilepath"] →
         merged !! k = kwargs !! k.
Proof.
  intros Hattr Hext Huri Hexts Hvar Hfile Hact Hmeth.
  pose proof (api_doc_spec (VStr s) kwargs f funcs h) as Hrun.
  simpl in Hrun. rewrite Hattr in Hrun. simpl in Hrun.
  rewrite (resolve_extends_none _ _ Hext) in Hrun.
  assert (deref h (fresh (dom h)) = ∅) as Hempty.
  { unfold deref.
    by rewrite (proj1 (not_elem_of_dom h _) (is_fresh (dom h))). }
  rewrite Hempty in Hrun.
  set (a := fresh (dom h)) in *.
  set (funcs' := <[f := with_api_doc (funcs f) a]> funcs) in *.
  set (own := attached (VStr s) kwargs (funcs f) ∅) in *.
  set (h1 := <[a := own]> h) in *.
  assert (funcs' f = with_api_doc (funcs f) a) as Hf
    by (subst funcs'; apply fn_lookup_insert).
  set (resolved := own ∪ {["doc" := doc_of (funcs' f)]}).
  assert (own !! "section" = Some (VStr s)) as Hsec.
  { subst own. unfold attached.
    rewrite !lookup_insert_ne by done. apply lookup_insert_eq. }
  assert (own !! "filepath" = Some (VStr (co_filename (funcs f)))) as Hfp.
  { subst own. unfold attached.
    rewrite lookup_insert_ne by done. apply lookup_insert_eq. }
  assert (own !! "lineno" = Some (VInt (co_firstlineno (funcs f)))) as Hline.
  { subst own. unfold attached. apply lookup_insert_eq. }
  assert (∀ k, k ≠ "section" → k ≠ "filepath" → k ≠ "lineno" →
               own !! k = kwargs !! k) as Hown
    by (intros k ???; by apply attached_fresh_lookup).
  assert (∀ k, k ≠ "doc" → resolved !! k = own !! k) as Hres.
  { intros k Hk. subst resolved. rewrite lookup_union.
    rewrite lookup_singleton_ne by done. by destruct (own !! k). }
  assert (documented h1 name (funcs' f) a own) as Hdoc.
  { unfold documented. rewrite Hf. simpl.
    split_and!; [done|done|done|subst h1; apply lookup_insert_eq|].
    by rewrite Hsec. }
  assert (resolved_of h1 own (funcs' f) = Some resolved) as Hresolved.
  { unfold resolved_of. by rewrite Hown, Hext. }
  assert (well_shaped resolved = true) as Hshape.
  { unfold well_shaped. rewrite !Hres, Hsec, Hfp, Hfile, !Hown by done.
    unfold shaped_uri, shaped_extensions, shaped_variants in *.
    by rewrite Huri, Hexts, Hvar. }
  assert (resolved !! "section" = Some (VStr s)) as Hsec'
    by (by rewrite Hres).
  exists funcs', h1,
    (merged_record relpath root_dir resolved url_prefix (action_of name)).
  split; [exact Hrun|]. split.
  - rewrite (docs_from_member_documented relpath root_dir url_prefix
               _ _ _ _ _ api_docs Hdoc).
    rewrite (document_merged_record relpath root_dir url_prefix h1 a own
               (funcs' f) resolved s (method_of name) (action_of name)
               api_docs (lookup_insert_eq _ _ _) Hresolved Hshape Hsec').
    rewrite (filed_uris_fields resolved kwargs)
      by (rewrite Hres, Hown; done).
    reflexivity.
  - split_and!.
    + by rewrite merged_record_other.
    + by rewrite merged_record_other, Hres.
    + by rewrite merged_record_other, Hres.
    + rewrite merged_record_other by done. subst resolved.
      rewrite lookup_union, lookup_singleton_eq, Hown by done.
      rewrite Hf. unfold doc_of. simpl.
      by destruct (kwargs !! "doc").
    + intros k Hk.
      rewrite !not_elem_of_cons in Hk.
      destruct Hk as (? & ? & ? & ? & ? & ? & ? & _).
      by rewrite merged_record_other, Hres, Hown.
Qed.

(** * The names that the collector documents *)

Lemma partition_underscore_join name :
  name = method_of name +:+ (partition_underscore name).1.2 +:+ action_of name ∧
  ((partition_underscore name).1.2 = "_" ∨ action_of name = "").
Proof.
  unfold method_of, action_of.
  induction name as [|c name IH]; simpl.
  { split; [reflexivity|by right]. }
  destruct (Ascii.eqb_spec c "_") as [->|Hc]; simpl.
  { split; [reflexivity|by left]. }
  destruct (partition_underscore name) as [[m sep] act]; simpl in *.
  destruct IH as [IH Hsep]. split; [by rewrite IH at 1|done].
Qed.

Lemma documented_name_form name :
  action_of name ≠ "" → method_of name ∈ ["GET"; "POST"] →
  name = "GET_" +:+ action_of name ∨ name = "POST_" +:+ action_of name.
Proof.
  intros Hact Hmeth.
  destruct (partition_underscore_join name) as [Hname [Hsep|Hnone]]; [|done].
  rewrite Hsep in Hname.
  rewrite !elem_of_cons, elem_of_nil in Hmeth.
  destruct Hmeth as [Hm|[Hm|[]]]; rewrite Hm in Hname; [by left|by right].
Qed.

(** X15. The collector documents only the members named [GET_action] or
    [POST_action] with an action that is not empty: every member with a name
    of another form, whatever metadata it carries, leaves the index and the
    store as they were. *)
Theorem other_names_are_passed_over (h : gmap nat (gmap string value))
    name func api_docs :
  (∀ action, action ≠ "" →
     name ≠ "GET_" +:+ action ∧ name ≠ "POST_" +:+ action) →
  docs_from_member relpath root_dir url_prefix name func api_docs h
  = Ok (api_docs, h).
Proof.
  intros Hname. apply docs_from_member_skipped. unfold skipped.
  destruct (decide (action_of name = "")) as [|Hact]; [by left|].
  right. left. intros Hmeth.
  destruct (Hname _ Hact) as [Hget Hpost].
  by destruct (documented_name_form name Hact Hmeth).
Qed.

End round_trip.

(** X16. The method and the action of a member are the parts of its name
    before and after its first underscore: a name that is a method without
    underscore, an underscore and an action has that method and that action,
    also when the action has underscores of its own. *)
Theorem name_splits_at_first_underscore method action :
  (∀ head tail, method ≠ head +:+ "_" +:+ tail) →
  method_of (method +:+ "_" +:+ action) = method ∧
  action_of (method +:+ "_" +:+ action) = action.
Proof.
  unfold method_of, action_of.
  induction method as [|c method IH]; intros Hfree; [done|].
  change (String c method +:+ "_" +:+ action)
    with (String c (method +:+ "_" +:+ action)).
  simpl.
  destruct (Ascii.eqb_spec c "_") as [->|Hc].
  { by destruct (Hfree "" method). }
  destruct IH as [IHm IHa].
  { intros head tail ->. by destruct (Hfree (String c head) tail). }
  destruct (partition_underscore (method +:+ "_" +:+ action))
    as [[m sep] act]; simpl in *.
  by subst.
Qed.

(** * A member that raises *)

Section failure.

Context (relpath : string → string → string) (root_dir : string).

Lemma docs_loop_app url_prefix before : ∀ after api_docs
    (h : gmap nat (gmap string value)),
  docs_loop relpath root_dir url_prefix (before ++ after)%list api_docs h
  = (let! api_docs := docs_loop relpath root_dir url_prefix before api_docs in
     docs_loop relpath root_dir url_prefix after api_docs) h.
Proof.
  induction before as [|[name func] before IH]; intros after api_docs h;
    [reflexivity|].
  simpl. unfold bind.
  destruct (docs_from_member _ _ _ name func api_docs h) as [[api_docs1 h1]|e];
    [|reflexivity].
  by rewrite IH.
Qed.

Lemma GET_docs_loop_app before : ∀ after api_docs
    (h : gmap nat (gmap string value)),
  GET_docs_loop relpath root_dir (before ++ after)%list api_docs h
  = (let! api_docs := GET_docs_loop relpath root_dir before api_docs in
     GET_docs_loop relpath root_dir after api_docs) h.
Proof.
  induction before as [|[controller url_prefix] before IH];
    intros after api_docs h; [reflexivity|].
  simpl. unfold bind.
  destruct (docs_from_controller _ _ controller url_prefix h)
    as [[part h1]|e]; [|reflexivity].
  by rewrite IH.
Qed.

Lemma GET_docs_loop_collectable sources : ∀ (h : gmap nat (gmap string value))
    api_docs,
  Forall (λ source, Forall (collectable h) source.1) sources →
  ∃ api_docs' h',
    GET_docs_loop relpath root_dir sources api_docs h = Ok (api_docs', h') ∧
    h ⊆ h'.
Proof.
  induction sources as [|[controller url_prefix] sources IH];
    intros h api_docs Hall.
  - by exists api_docs, h.
  - apply Forall_cons_1 in Hall as [Hhead Htail]. simpl in Hhead.
    destruct (docs_loop_collectable relpath root_dir url_prefix controller
                h ∅ Hhead) as (part & h1 & Hpart).
    pose proof (docs_loop_frame _ _ _ _ _ _ _ _ Hpart) as Hsub.
    destruct (IH h1 (merge_docs api_docs part)) as (api_docs' & h' & Hrun & ?).
    { eapply Forall_impl; [|exact Htail].
      intros source Hsource. eapply Forall_impl; [|exact Hsource].
      intros member. by apply collectable_frame. }
    exists api_docs', h'. split; [|by etrans].
    simpl. unfold docs_from_controller.
    by rewrite (bind_Ok _ _ _ _ _ Hpart).
Qed.

(** X17. A member that raises fails the whole page. When the members that
    a controller yields before it and the sources before that controller
    are collected without an error, a documented member whose record has
    no [filepath] makes the collection of its controller raise [KeyError],
    and with it the aggregation over all sources, whatever comes after. *)
Theorem raising_member_fails_the_page (h : gmap nat (gmap string value))
    earlier later before after url_prefix name func a own resolved :
  Forall (λ source, Forall (collectable h) source.1) earlier →
  Forall (collectable h) before →
  documented h name func a own →
  resolved_of h own func = Some resolved →
  shaped_uri resolved = true → shaped_extensions resolved = true →
  resolved !! "filepath" = None →
  let controller := (before ++ (name, func) :: after)%list in
  docs_from_controller relpath root_dir controller url_prefix h
  = Raise KeyError ∧
  GET_docs relpath root_dir
    (earlier ++ (controller, url_prefix) :: later)%list h
  = Raise KeyError.
Proof.
  intros Hearlier Hbefore Hdoc Hres Huri Hext Hfp controller.
  assert (∀ h1, h ⊆ h1 →
            docs_from_controller relpath root_dir controller url_prefix h1
            = Raise KeyError) as Hraise.
  { intros h1 Hsub1. unfold docs_from_controller. subst controller.
    rewrite docs_loop_app.
    destruct (docs_loop_collectable relpath root_dir url_prefix before h1 ∅)
      as (api_docs1 & h2 & Hrun).
    { eapply Forall_impl; [|exact Hbefore].
      intros member. by apply collectable_frame. }
    rewrite (bind_Ok _ _ _ _ _ Hrun).
    pose proof (docs_loop_frame _ _ _ _ _ _ _ _ Hrun) as Hsub2.
    assert (h ⊆ h2) as Hsub by (by etrans).
    pose proof (documented_frame _ _ _ _ _ _ Hsub Hdoc) as Hdoc2.
    simpl. apply bind_Raise.
    rewrite (docs_from_member_documented _ _ _ _ _ _ _ _ _ Hdoc2).
    apply (document_missing_filepath relpath root_dir url_prefix h2 a own
             func resolved); [apply Hdoc2| |done..].
    by apply (resolved_of_frame h). }
  split; [by apply Hraise|].
  unfold GET_docs. rewrite GET_docs_loop_app.
  destruct (GET_docs_loop_collectable earlier h ∅ Hearlier)
    as (api_docs1 & h1 & Hrun & Hsub).
  rewrite (bind_Ok _ _ _ _ _ Hrun).
  simpl. apply bind_Raise. by apply Hraise.
Qed.

End failure.

(** * The further properties on the sample metadata *)



(** C4 on the first sample member, which has one extension. *)
Lemma extension_folding_witness :
  ∃ api_docs' merged,
    docs_from_member sample_relpath "/srv/r2" "/api" "GET_info"
      (sample_function (Some 0)) ∅ sample_store
    = Ok (api_docs', <[fresh (dom sample_store) := merged]> sample_store) ∧
    merged !! "uri" = Some (VStr "/api/info.json") ∧
    merged !! "extensions" = None ∧
    entry api_docs' (KStr "account") (KStr "/api/info.json")
      (method_of "GET_info") = Some (fresh (dom sample_store)).
Proof.
  destruct (extension_folding sample_relpath "/srv/r2" "/api" sample_store
              "GET_info" (sample_function (Some 0)) 0 info_doc
              (info_doc ∪ {["doc" := VStr "Do it."]}) ∅)
    as (api_docs' & merged & s & uri & Hrun & Hsec & Huri & Hentry & Hone
        & _ & _ & Hdeclared & _).
  - evaluate_documented.
  - evaluate.
  - evaluate.
  - assert ((info_doc ∪ {["doc" := VStr "Do it."]}) !! "section"
            = Some (VStr "account")) as Haccount by evaluate.
    assert (s = "account") as -> by congruence.
    destruct (Hone "json") as [Hfolded Hnone]; [evaluate|].
    subst uri.
    rewrite (Hdeclared "/api/info") in Huri, Hentry
      by (evaluate || discriminate).
    exists api_docs', merged. split_and!; assumption.
Defined.

(** C10 on the sample member whose URI is the empty string, beside a
    member whose record is the same without the field. *)
Lemma empty_uri_is_derived_witness :
  ∃ api_docs' merged,
    docs_from_member sample_relpath "/srv/r2" "/api" "POST_empty"
      (sample_function (Some 4)) ∅ absent_uri_store
    = Ok (api_docs', <[fresh (dom absent_uri_store) := merged]> absent_uri_store) ∧
    merged !! "uri" = Some (VStr "/api/empty") ∧
    entry api_docs' (KStr "misc") (KStr "/api/empty") (method_of "POST_empty")
    = Some (fresh (dom absent_uri_store)) ∧
    docs_from_member sample_relpath "/srv/r2" "/api" "POST_empty"
      (sample_function (Some 6)) ∅ absent_uri_store
    = Ok (api_docs', <[fresh (dom absent_uri_store) := merged]> absent_uri_store).
Proof.
  destruct (empty_uri_is_derived sample_relpath "/srv/r2" "/api"
              absent_uri_store "POST_empty" (sample_function (Some 4)) 4
              empty_uri_doc (empty_uri_doc ∪ {["doc" := VStr "Do it."]}) ∅)
    as (api_docs' & merged & s & Hrun & Hsec & Huri & _ & Hentry & Hderived
        & Hsame).
  - evaluate_documented.
  - evaluate.
  - evaluate.
  - evaluate.
  - assert ((empty_uri_doc ∪ {["doc" := VStr "Do it."]}) !! "section"
            = Some (VStr "misc")) as Hmisc by evaluate.
    assert (s = "misc") as -> by congruence.
    rewrite Hderived in Huri, Hentry by evaluate.
    exists api_docs', merged.
    split; [exact Hrun|]. split; [exact Huri|]. split; [exact Hentry|].
    apply (Hsame (sample_function (Some 6)) 6 (delete "uri" empty_uri_doc)).
    + evaluate_documented.
    + evaluate.
Defined.

(** X1: a URI, then a section and a description, on one function. *)
Lemma successive_attachments_compose_witness :
  let kwargs1 : gmap string value := {[ "uri" := VStr "/api/info" ]} in
  let kwargs2 : gmap string value := {[ "doc" := VStr "Described." ]} in
  ∃ funcs1 h1 funcs2 h2 c r1 r2,
    api_doc (VStr "account") kwargs1 0 bare_functions ∅ = Ok (funcs1, h1) ∧
    api_doc (VStr "misc") kwargs2 0 funcs1 h1 = Ok (funcs2, h2) ∧
    _api_doc (funcs1 0) = Some c ∧ _api_doc (funcs2 0) = Some c ∧
    h1 !! c = Some r1 ∧ h2 !! c = Some r2 ∧
    r1 !! "section" = Some (VStr "account") ∧
    r2 !! "section" = Some (VStr "misc") ∧
    r2 !! "doc" = Some (VStr "Described.") ∧
    r2 !! "uri" = r1 !! "uri".
Proof.
  intros kwargs1 kwargs2.
  destruct (successive_attachments_compose (VStr "account") kwargs1
              (VStr "misc") kwargs2 0 bare_functions ∅)
    as (funcs1 & h1 & funcs2 & h2 & c & r1 & r2 & H1 & H2 & Hc1 & Hc2 & Hr1
        & Hr2 & Hs1 & Hs2 & Hover & Hkeep & _).
  - evaluate.
  - evaluate.
  - exists funcs1, h1, funcs2, h2, c, r1, r2.
    split_and!; try assumption.
    + apply Hover; [evaluate|discriminate..].
    + destruct (Hkeep "uri") as [Huri|Huri]; [evaluate|exact Huri|].
      discriminate Huri.
Defined.

(** X2 and X3: an attachment to the sample function that has no metadata. *)
Lemma attachment_sets_section_and_location_witness :
  ∃ kwargs' funcs' h' c r,
    add_metadata (VStr "account") {[ "uri" := VStr "/api/info" ]} 7
      sample_functions sample_store = Ok ((kwargs', funcs'), h') ∧
    _api_doc (funcs' 7) = Some c ∧ h' !! c = Some r ∧
    r !! "section" = Some (VStr "account") ∧
    r !! "filepath" = Some (VStr api_py) ∧
    r !! "lineno" = Some (VInt 1).
Proof.
  returns (add_metadata (VStr "account") {[ "uri" := VStr "/api/info" ]} 7
             sample_functions sample_store) x h' Hrun.
  destruct x as [kwargs' funcs'].
  destruct (attachment_sets_section_and_location _ _ _ _ _ _ _ _ Hrun)
    as (c & r & Hc & Hr & Hsec & Hfile & Hline & _).
  exists kwargs', funcs', h', c, r.
  split; [reflexivity|]. split_and!; assumption.
Defined.

Lemma attachment_touches_one_record_witness :
  ∃ kwargs' funcs' h' c,
    add_metadata (VStr "account") {[ "uri" := VStr "/api/info" ]} 7
      sample_functions sample_store = Ok ((kwargs', funcs'), h') ∧
    _api_doc (funcs' 7) = Some c ∧
    sample_store !! c = None ∧
    (∀ a, a ≠ c → h' !! a = sample_store !! a) ∧
    (∀ g, g ≠ 7 → funcs' g = sample_functions g).
Proof.
  returns (add_metadata (VStr "account") {[ "uri" := VStr "/api/info" ]} 7
             sample_functions sample_store) x h' Hrun.
  destruct x as [kwargs' funcs'].
  destruct (attachment_touches_one_record _ _ _ _ _ _ _ _ Hrun)
    as (c & Hc & Hnew & Hframe & Hfuncs & _).
  exists kwargs', funcs', h', c.
  split; [reflexivity|]. split_and!; assumption.
Defined.

(** X4: the decorator that extended the function [0] cannot be applied to
    another function. *)
Lemma decorator_with_extends_is_single_use_witness :
  ∃ kwargs' funcs' h',
    add_metadata (VStr "misc") {[ "extends" := VFunc 0 ]} 7
      sample_functions sample_store = Ok ((kwargs', funcs'), h') ∧
    ∀ f2 funcs2 h2,
      add_metadata (VStr "misc") kwargs' f2 funcs2 h2 = Raise AttributeError.
Proof.
  returns (add_metadata (VStr "misc") {[ "extends" := VFunc 0 ]} 7
             sample_functions sample_store) x h' Hrun.
  destruct x as [kwargs' funcs'].
  exists kwargs', funcs', h'. split; [reflexivity|].
  apply (decorator_with_extends_is_single_use (VStr "misc")
           {[ "extends" := VFunc 0 ]} 7 sample_functions sample_store
           kwargs' funcs' h'); [|exact Hrun].
  exists (VFunc 0). evaluate.
Defined.

(** X5 on the first sample member: one extension and one variant. *)
Lemma collector_computes_merged_record_witness :
  let resolved := info_doc ∪ {[ "doc" := VStr "Do it." ]} in
  let d := fresh (dom sample_store) in
  docs_from_member sample_relpath "/srv/r2" "/api" "GET_info"
    (sample_function (Some 0)) ∅ sample_store
  = Ok (filed ∅ (KStr "account") (method_of "GET_info") d
          (KStr <$> filed_uris resolved "/api" (action_of "GET_info")),
        <[d := merged_record sample_relpath "/srv/r2" resolved "/api"
                 (action_of "GET_info")]> sample_store) ∧
  filed_uris resolved "/api" (action_of "GET_info")
  = ["/api/info.json"; "/api/about"] ∧
  merged_record sample_relpath "/srv/r2" resolved "/api" (action_of "GET_info")
  !! "relfilepath" = Some (VStr "r2/controllers/api.py").
Proof.
  intros resolved d. split; [|split; evaluate].
  apply (collector_computes_merged_record sample_relpath "/srv/r2" "/api"
           sample_store "GET_info" (sample_function (Some 0)) 0 info_doc
           resolved "account" ∅).
  - evaluate_documented.
  - evaluate.
  - evaluate.
  - evaluate.
Defined.

(** X6 on the sample member without [extends] and without parameters. *)
Lemma member_without_extends_witness :
  ∃ api_docs' h' merged,
    docs_from_member sample_relpath "/srv/r2" "/api" "POST_empty"
      (sample_function (Some 4)) ∅ sample_store = Ok (api_docs', h') ∧
    h' !! fresh (dom sample_store) = Some merged ∧
    merged !! "parameters" = None ∧
    merged !! "extends" = None.
Proof.
  returns (docs_from_member sample_relpath "/srv/r2" "/api" "POST_empty"
             (sample_function (Some 4)) ∅ sample_store) api_docs' h' Hrun.
  destruct (member_without_extends sample_relpath "/srv/r2" "/api"
              sample_store h' "POST_empty" (sample_function (Some 4)) 4
              empty_uri_doc ∅ api_docs')
    as (merged & Hm & Hparams & Hext & _).
  - evaluate_documented.
  - evaluate.
  - exact Hrun.
  - exists api_docs', h', merged. split; [reflexivity|].
    split; [exact Hm|]. split; [|exact Hext].
    rewrite Hparams. evaluate.
Defined.

(** X7 on a member that extends a record with a [doc] field: the field of
    the extended record wins over the docstring of the member. *)
Lemma doc_of_merged_record_witness :
  ∃ api_docs' h' merged,
    docs_from_member sample_relpath "/srv/r2" "/api" "GET_heir"
      (sample_function (Some 3)) ∅ edge_store = Ok (api_docs', h') ∧
    h' !! fresh (dom edge_store) = Some merged ∧
    merged !! "doc" = Some (VStr "Described.").
Proof.
  returns (docs_from_member sample_relpath "/srv/r2" "/api" "GET_heir"
             (sample_function (Some 3)) ∅ edge_store) api_docs' h' Hrun.
  destruct (doc_of_merged_record sample_relpath "/srv/r2" "/api"
              edge_store h' "GET_heir" (sample_function (Some 3)) 3
              heir_doc
              (heir_doc ∪ <["parameters" := VDict ∅]>
                            (described_doc ∪ {["doc" := VStr "Do it."]}))
              ∅ api_docs')
    as (merged & Hm & Hdoc).
  - evaluate_documented.
  - evaluate.
  - exact Hrun.
  - exists api_docs', h', merged. split; [reflexivity|].
    split; [exact Hm|]. rewrite Hdoc. evaluate.
Defined.

(** X8 on the sample record without [filepath]. *)
Lemma missing_filepath_raises_witness :
  docs_from_member sample_relpath "/srv/r2" "/api" "GET_nofile"
    (sample_function (Some 0)) ∅ edge_store = Raise KeyError.
Proof.
  apply (missing_filepath_raises sample_relpath "/srv/r2" "/api" edge_store
           "GET_nofile" (sample_function (Some 0)) 0 nofile_doc
           (nofile_doc ∪ {["doc" := VStr "Do it."]}) ∅).
  - evaluate_documented.
  - evaluate.
  - evaluate.
  - evaluate.
  - evaluate.
Defined.

(** X9 on the sample record whose variants are the string [ab]. *)
Lemma string_variants_are_split_witness :
  let resolved := string_variants_doc ∪ {[ "doc" := VStr "Do it." ]} in
  let d := fresh (dom edge_store) in
  docs_from_member sample_relpath "/srv/r2" "/api" "GET_split"
    (sample_function (Some 1)) ∅ edge_store
  = Ok (filed ∅ (KStr "misc") (method_of "GET_split") d
          (KStr <$> folded_uri resolved
                      (canonical_of resolved "/api" (action_of "GET_split"))
                    :: chars "ab"),
        <[d := merged_record sample_relpath "/srv/r2" resolved "/api"
                 (action_of "GET_split")]> edge_store) ∧
  folded_uri resolved (canonical_of resolved "/api" (action_of "GET_split"))
  :: chars "ab" = ["/api/split"; "a"; "b"].
Proof.
  intros resolved d. split; [|evaluate].
  apply (string_variants_are_split sample_relpath "/srv/r2" "/api" edge_store
           "GET_split" (sample_function (Some 1)) 1 string_variants_doc
           resolved "misc" "/"%char "srv/r2/r2/controllers/api.py" "ab" ∅).
  - evaluate_documented.
  - evaluate.
  - evaluate.
  - evaluate.
  - evaluate.
  - evaluate.
  - evaluate.
Defined.

(** X10 on the sample controller and the entry of its second member. *)
Lemma collected_entries_are_well_filed_witness :
  ∃ api_docs h',
    docs_from_controller sample_relpath "/srv/r2" sample_controller "/api"
      sample_store = Ok (api_docs, h') ∧
    entry api_docs (KStr "bogus") (KStr "/api/child.json") "POST" = Some 7 ∧
    well_filed h' (KStr "bogus") (KStr "/api/child.json") "POST" 7.
Proof.
  assert (returned (docs_from_controller sample_relpath "/srv/r2"
                      sample_controller "/api" sample_store)
          ≫= (λ api_docs,
                entry api_docs (KStr "bogus") (KStr "/api/child.json") "POST")
          = Some 7) as Hentry by evaluate.
  returns (docs_from_controller sample_relpath "/srv/r2" sample_controller
             "/api" sample_store) api_docs h' Hrun.
  exists api_docs, h'. split; [reflexivity|]. split; [exact Hentry|].
  exact (collected_entries_are_well_filed sample_relpath "/srv/r2" "/api"
           sample_store h' sample_controller api_docs _ _ _ _ Hrun Hentry).
Defined.

(** X11 and X12 on the two sources that document one URI. *)
Lemma aggregation_last_source_wins_witness :
  ∃ api_docs h' parts,
    GET_docs sample_relpath "/srv/r2"
      [(get_source, "/api"); (post_source, "/api")] sample_store
    = Ok (api_docs, h') ∧
    collect_each sample_relpath "/srv/r2"
      [(get_source, "/api"); (post_source, "/api")] sample_store
    = Ok (parts, h') ∧
    length parts = 2 ∧
    ∀ s u, methods_at api_docs s u = last_methods_at parts s u.
Proof.
  returns (GET_docs sample_relpath "/srv/r2"
             [(get_source, "/api"); (post_source, "/api")] sample_store)
    api_docs h' Hrun.
  destruct (aggregation_last_source_wins sample_relpath "/srv/r2"
              sample_store h' _ api_docs Hrun)
    as (parts & Hparts & Hlen & Hmethods & _).
  exists api_docs, h', parts.
  split; [reflexivity|]. split_and!; assumption.
Defined.

Lemma aggregator_leaves_metadata_alone_witness :
  ∃ api_docs h',
    GET_docs sample_relpath "/srv/r2"
      [(get_source, "/api"); (post_source, "/api")] sample_store
    = Ok (api_docs, h') ∧
    (∀ a r, sample_store !! a = Some r → h' !! a = Some r) ∧
    (∀ s u m d, entry api_docs s u m = Some d →
                sample_store !! d = None ∧ well_filed h' s u m d).
Proof.
  returns (GET_docs sample_relpath "/srv/r2"
             [(get_source, "/api"); (post_source, "/api")] sample_store)
    api_docs h' Hrun.
  exists api_docs, h'. split; [reflexivity|].
  exact (aggregator_leaves_metadata_alone sample_relpath "/srv/r2"
           sample_store h' _ api_docs Hrun).
Defined.

(** X13: the API controller documents [/foo] under GET, a listing
    controller documents it under POST; the helper of the listing module is
    no source. *)
Lemma listing_controllers_win_witness :
  ∃ api_docs h' api apiminimal front listings h1,
    GET_docs sample_relpath "/srv/r2"
      (api_controllers get_source [] get_source sample_listing) sample_store
    = Ok (api_docs, h') ∧
    listing_sources sample_listing = [(post_source, "")] ∧
    collect_each sample_relpath "/srv/r2"
      [(get_source, "/api"); ([], "/api"); (get_source, "")] sample_store
    = Ok ([api; apiminimal; front], h1) ∧
    collect_each sample_relpath "/srv/r2" (listing_sources sample_listing) h1
    = Ok (listings, h') ∧
    ∀ s u,
      methods_at api_docs s u
      = match last_methods_at listings s u with
        | Some by_method => Some by_method
        | None => last_methods_at [api; apiminimal; front] s u
        end.
Proof.
  returns (GET_docs sample_relpath "/srv/r2"
             (api_controllers get_source [] get_source sample_listing)
             sample_store) api_docs h' Hrun.
  destruct (listing_controllers_win sample_relpath "/srv/r2" sample_store h'
              get_source [] get_source sample_listing api_docs Hrun)
    as (_ & api & apiminimal & front & listings & h1 & H1 & H2 & Hwin).
  exists api_docs, h', api, apiminimal, front, listings, h1.
  split; [reflexivity|]. split; [evaluate|]. split_and!; assumption.
Defined.

(** X14: a function without metadata is decorated and collected. *)
Lemma attached_function_is_collected_witness :
  let kwargs : gmap string value :=
    {[ "uri" := VStr "/api/info"; "extensions" := VList ["json"];
       "uri_variants" := VList ["/api/about"] ]} in
  ∃ funcs' h1 merged,
    api_doc (VStr "account") kwargs 0 bare_functions ∅ = Ok (funcs', h1) ∧
    docs_from_member sample_relpath "/srv/r2" "/api" "GET_info" (funcs' 0) ∅ h1
    = Ok (filed ∅ (KStr "account") (method_of "GET_info") (fresh (dom h1))
            (KStr <$> filed_uris kwargs "/api" (action_of "GET_info")),
          <[fresh (dom h1) := merged]> h1) ∧
    filed_uris kwargs "/api" (action_of "GET_info")
    = ["/api/info.json"; "/api/about"] ∧
    merged !! "section" = Some (VStr "account") ∧
    merged !! "doc" = Some (VStr "Do it.") ∧
    merged !! "uri_variants" = Some (VList ["/api/about"]).
Proof.
  intros kwargs.
  destruct (attached_function_is_collected sample_relpath "/srv/r2" "/api"
              ∅ bare_functions 0 "account" kwargs "GET_info" "/"%char
              "srv/r2/r2/controllers/api.py" ∅)
    as (funcs' & h1 & merged & Hattach & Hcollect & Hsec & _ & _ & Hdoc
        & Hother).
  - evaluate.
  - evaluate.
  - evaluate.
  - evaluate.
  - evaluate.
  - evaluate.
  - evaluate.
  - evaluate.
  - exists funcs', h1, merged.
    split; [exact Hattach|]. split; [exact Hcollect|].
    split; [evaluate|]. split; [exact Hsec|]. split.
    + rewrite Hdoc. evaluate.
    + rewrite Hother; evaluate.
Defined.

(** X15 on the sample members named [helper] and [get_info]. *)
Lemma other_names_are_passed_over_witness :
  docs_from_member sample_relpath "/srv/r2" "/api" "helper"
    (sample_function (Some 0)) ∅ sample_store = Ok (∅, sample_store) ∧
  docs_from_member sample_relpath "/srv/r2" "/api" "get_info"
    (sample_function (Some 0)) ∅ sample_store = Ok (∅, sample_store).
Proof.
  split.
  - apply (other_names_are_passed_over sample_relpath "/srv/r2" "/api"
             sample_store "helper" (sample_function (Some 0)) ∅).
    intros action _. split; intros Hname; discriminate Hname.
  - apply (other_names_are_passed_over sample_relpath "/srv/r2" "/api"
             sample_store "get_info" (sample_function (Some 0)) ∅).
    intros action _. split; intros Hname; discriminate Hname.
Defined.

(** X16 on a name whose action has an underscore. *)
Lemma name_splits_at_first_underscore_witness :
  method_of "GET_user_about" = "GET" ∧ action_of "GET_user_about" = "user_about".
Proof.
  apply (name_splits_at_first_underscore "GET" "user_about").
  intros [|c1 [|c2 [|c3 [|c4 head]]]] tail Hname;
    simpl in Hname; discriminate Hname.
Defined.

(** X17: the member without [filepath] between two members that are
    collected without an error, in the second of two sources. *)
Lemma described_member_collectable :
  collectable edge_store described_member.
Proof.
  right. exists 2, described_doc, (described_doc ∪ {["doc" := VStr "Do it."]}).
  split_and!; [evaluate_documented|evaluate..].
Defined.

Lemma raising_member_fails_the_page_witness :
  let controller := ([described_member] ++ nofile_member :: [described_member])%list in
  docs_from_controller sample_relpath "/srv/r2" controller "/api" edge_store
  = Raise KeyError ∧
  GET_docs sample_relpath "/srv/r2"
    ([([described_member], "")] ++ (controller, "/api") :: [])%list edge_store
  = Raise KeyError.
Proof.
  apply (raising_member_fails_the_page sample_relpath "/srv/r2" edge_store
           [([described_member], "")] [] [described_member] [described_member]
           "/api" "GET_nofile" (sample_function (Some 0)) 0 nofile_doc
           (nofile_doc ∪ {["doc" := VStr "Do it."]})).
  - apply Forall_cons_2; [|apply Forall_nil_2].
    apply Forall_cons_2; [|apply Forall_nil_2].
    apply described_member_collectable.
  - apply Forall_cons_2; [|apply Forall_nil_2].
    apply described_member_collectable.
  - evaluate_documented.
  - evaluate.
  - evaluate.
  - evaluate.
  - evaluate.
Defined.
